(** * The git-status polling hook ([useGitStatus])

    A shallow embedding of [src/features/git/hooks/useGitStatus.ts]:
    the value-equality predicate on status snapshots, the sticky branch
    name rule, the two promise handlers of [refresh], the two effects of
    the hook, and the transition system they generate when React renders
    the hook and runs its effects, the interval fires, callers refresh and
    fetches settle.

    Conventions of the embedding.
    - A JavaScript string is the list of its UTF-16 code units.
    - The counters of a snapshot are integers (the hook never computes
      with them, it only compares and copies them); [NaN] is outside the
      model.
    - The request counter is an unbounded natural number.
    - A status object carries two ghost fields: its identity ([oid]), which
      lets the model tell [prev] from a freshly built [nextStatus], and its
      [origin], the workspace whose fetch built it.
    - [getGitStatus] and [GitFileStatus] live outside the file; the model
      takes from them what the hook reads: a promise that settles with the
      six fields of a raw status or with a rejection, and the four fields
      [sameFileStatusLists] compares.
    - The active workspace of the hook is the one it has recorded in
      [workspaceIdRef.current], the value the stale check reads; the first
      effect records the workspace of a render when it runs. *)

From Stdlib Require Import Ascii String.
From stdpp Require Import gmap list.

(** ** JavaScript strings *)

Module Js.

Definition str := list N.

(** The code units of an ASCII literal. *)
Definition lit (s : string) : str :=
  map N_of_ascii (list_ascii_of_string s).

(** [WhiteSpace] and [LineTerminator] of ECMAScript: what
    [String.prototype.trim] strips. *)
Definition isWhiteSpace (c : N) : bool :=
  ((9 <=? c) && (c <=? 13)                (* TAB LF VT FF CR *)
   || (c =? 32) || (c =? 160)             (* SP, NBSP *)
   || (c =? 5760)                         (* U+1680 *)
   || ((8192 <=? c) && (c <=? 8202))      (* U+2000 .. U+200A *)
   || (c =? 8232) || (c =? 8233)          (* LS, PS *)
   || (c =? 8239) || (c =? 8287)          (* U+202F, U+205F *)
   || (c =? 12288) || (c =? 65279))%N.    (* U+3000, U+FEFF *)

Fixpoint trimStart (s : str) : str :=
  match s with
  | c :: rest => if isWhiteSpace c then trimStart rest else s
  | [] => []
  end.

Definition trimEnd (s : str) : str := reverse (trimStart (reverse s)).

Definition trim (s : str) : str := trimEnd (trimStart s).

(** Truthiness of a [string | undefined] value. *)
Definition truthy (s : option str) : bool :=
  match s with
  | Some (_ :: _) => true
  | _ => false
  end.

(** [s !== lit] for a [string | undefined] value [s]. *)
Definition differs (s : option str) (l : str) : bool :=
  negb (bool_decide (s = Some l)).

(** No white space at either end. *)
Definition trimmed (s : str) : Prop :=
  (∀ c, head s = Some c → isWhiteSpace c = false)
  ∧ (∀ c, last s = Some c → isWhiteSpace c = false).

End Js.

Notation "'js:' s" := (Js.lit s) (at level 1, s at level 0, format "'js:' s").

Global Arguments Js.lit : simpl never.
Global Arguments Js.truthy : simpl never.
Global Arguments Js.differs : simpl never.

(** ** Data model (lines 5-25) *)

Record GitFileStatus := mkFile {
  path : Js.str;
  fstatus : Js.str;
  additions : Z;
  deletions : Z;
}.

Record GitStatusState := mkState {
  branchName : Js.str;
  files : list GitFileStatus;
  stagedFiles : list GitFileStatus;
  unstagedFiles : list GitFileStatus;
  totalAdditions : Z;
  totalDeletions : Z;
  error : option Js.str;
}.

(** What [getGitStatus] resolves with. *)
Record RawStatus := mkRaw {
  raw_branchName : option Js.str;
  raw_files : list GitFileStatus;
  raw_stagedFiles : list GitFileStatus;
  raw_unstagedFiles : list GitFileStatus;
  raw_totalAdditions : Z;
  raw_totalDeletions : Z;
}.

(** The fields of the module constant [emptyStatus]. *)
Definition emptyFields : GitStatusState :=
  {| branchName := [];
     files := [];
     stagedFiles := [];
     unstagedFiles := [];
     totalAdditions := 0;
     totalDeletions := 0;
     error := None |}.

Definition REFRESH_INTERVAL_MS : Z := 5000.

(** [{ ...s, error: e }] *)
Definition with_error (s : GitStatusState) (e : option Js.str) : GitStatusState :=
  {| branchName := branchName s;
     files := files s;
     stagedFiles := stagedFiles s;
     unstagedFiles := unstagedFiles s;
     totalAdditions := totalAdditions s;
     totalDeletions := totalDeletions s;
     error := e |}.

(** [{ ...s, branchName: b, error: e }] *)
Definition with_branch_error (s : GitStatusState) (b : Js.str) (e : option Js.str)
  : GitStatusState :=
  {| branchName := b;
     files := files s;
     stagedFiles := stagedFiles s;
     unstagedFiles := unstagedFiles s;
     totalAdditions := totalAdditions s;
     totalDeletions := totalDeletions s;
     error := e |}.

(** [{ ...data, branchName: b, error: null }] *)
Definition of_raw (data : RawStatus) (b : Js.str) : GitStatusState :=
  {| branchName := b;
     files := raw_files data;
     stagedFiles := raw_stagedFiles data;
     unstagedFiles := raw_unstagedFiles data;
     totalAdditions := raw_totalAdditions data;
     totalDeletions := raw_totalDeletions data;
     error := None |}.

Global Instance GitFileStatus_eq_dec : EqDecision GitFileStatus.
Proof. solve_decision. Defined.

Global Instance GitStatusState_eq_dec : EqDecision GitStatusState.
Proof. solve_decision. Defined.

(** ** Value equality of snapshots (lines 27-59) *)

(** The condition of the [if] inside the loop. *)
Definition entryDiffers (lhs rhs : GitFileStatus) : bool :=
  negb (bool_decide (path lhs = path rhs))
  || negb (bool_decide (fstatus lhs = fstatus rhs))
  || negb (bool_decide (additions lhs = additions rhs))
  || negb (bool_decide (deletions lhs = deletions rhs)).

(** The [for] loop, started at [index] with [remaining] iterations to go.
    A read past the end of either array would be [undefined] and the
    field access would throw; the length test before the loop excludes
    it, and the model answers [false] there. *)
Fixpoint sameFileStatusLoop (a b : list GitFileStatus) (index remaining : nat) : bool :=
  match remaining with
  | O => true
  | S remaining' =>
      match a !! index, b !! index with
      | Some lhs, Some rhs =>
          if entryDiffers lhs rhs then false
          else sameFileStatusLoop a b (S index) remaining'
      | _, _ => false
      end
  end.

(** The shortcut [a === b] compares references; lists here are values
    and have none. It answers [true] only where the loop does
    ([sameFileStatusLists_refl] below), so leaving it out changes no
    result. *)
Definition sameFileStatusLists (a b : list GitFileStatus) : bool :=
  if negb (bool_decide (length a = length b)) then false
  else sameFileStatusLoop a b 0 (length a).

Definition sameStatusState (a b : GitStatusState) : bool :=
  bool_decide (branchName a = branchName b)
  && bool_decide (error a = error b)
  && bool_decide (totalAdditions a = totalAdditions b)
  && bool_decide (totalDeletions a = totalDeletions b)
  && sameFileStatusLists (files a) (files b)
  && sameFileStatusLists (stagedFiles a) (stagedFiles b)
  && sameFileStatusLists (unstagedFiles a) (unstagedFiles b).

(** ** The sticky branch name (lines 68-80) *)

Definition resolveBranchName (incoming : option Js.str) (cached : option GitStatusState)
  : Js.str :=
  let trimmed := Js.trim <$> incoming in
  if Js.truthy trimmed && Js.differs trimmed js:"unknown" then default [] trimmed
  else
    let cachedBranch := (λ c, Js.trim (branchName c)) <$> cached in
    if Js.truthy cachedBranch && Js.differs cachedBranch js:"unknown"
    then default [] cachedBranch
    else default [] trimmed.

(** ** Objects and the state of one hook instance (lines 61-66) *)

(** A status object on the JavaScript heap: its fields, and two ghost
    fields the code cannot read. [oid] is the object's identity;
    [origin] is the workspace whose fetch built the object ([None] for the
    module constant). *)
Record StatusObj := mkObj {
  oid : N;
  origin : option Js.str;
  val : GitStatusState;
}.

Global Instance StatusObj_eq_dec : EqDecision StatusObj.
Proof. solve_decision. Defined.

(** The module constant, allocated once. *)
Definition emptyStatus : StatusObj :=
  {| oid := 0; origin := None; val := emptyFields |}.

(** [useState] and the three [useRef]s, and the allocation counter of
    the heap (ghost). *)
Record Hook := mkHook {
  status : StatusObj;
  requestIdRef : N;
  workspaceIdRef : option Js.str;
  cachedStatusRef : gmap (list N) StatusObj;
  allocated : N;
}.

Definition setStatus (update : StatusObj → StatusObj) (h : Hook) : Hook :=
  {| status := update (status h);
     requestIdRef := requestIdRef h;
     workspaceIdRef := workspaceIdRef h;
     cachedStatusRef := cachedStatusRef h;
     allocated := allocated h |}.

Definition setRequestId (n : N) (h : Hook) : Hook :=
  {| status := status h;
     requestIdRef := n;
     workspaceIdRef := workspaceIdRef h;
     cachedStatusRef := cachedStatusRef h;
     allocated := allocated h |}.

Definition setWorkspaceId (ws : option Js.str) (h : Hook) : Hook :=
  {| status := status h;
     requestIdRef := requestIdRef h;
     workspaceIdRef := ws;
     cachedStatusRef := cachedStatusRef h;
     allocated := allocated h |}.

(** [cachedStatusRef.current.set(ws, o)] *)
Definition cacheSet (ws : Js.str) (o : StatusObj) (h : Hook) : Hook :=
  {| status := status h;
     requestIdRef := requestIdRef h;
     workspaceIdRef := workspaceIdRef h;
     cachedStatusRef := <[ws := o]> (cachedStatusRef h);
     allocated := allocated h |}.

(** An object literal: a fresh identity. *)
Definition newObject (ws : Js.str) (fields : GitStatusState) (h : Hook)
  : StatusObj * Hook :=
  ({| oid := allocated h; origin := Some ws; val := fields |},
   {| status := status h;
      requestIdRef := requestIdRef h;
      workspaceIdRef := workspaceIdRef h;
      cachedStatusRef := cachedStatusRef h;
      allocated := allocated h + 1 |}).

(** ** [refresh] (lines 82-122) *)

(** A fetch in flight: the two values its handlers closed over. The
    workspace id of a request is a string, [refresh] returned early
    otherwise. *)
Record Request := mkReq {
  requestId : N;
  workspaceId : Js.str;
}.

Global Instance Request_eq_dec : EqDecision Request.
Proof. solve_decision. Defined.

(** What a promise of [getGitStatus] rejects with: an [Error] with its
    message, or any other value with its [String(err)]. *)
Inductive Rejection :=
  | ErrorObject (message : Js.str)
  | OtherValue (asString : Js.str).

(** [err instanceof Error ? err.message : String(err)] *)
Definition messageOf (err : Rejection) : Js.str :=
  match err with
  | ErrorObject message => message
  | OtherValue asString => asString
  end.

(** The guard both handlers start with. *)
Definition isStale (r : Request) (h : Hook) : bool :=
  negb (bool_decide (requestIdRef h = requestId r))
  || negb (bool_decide (workspaceIdRef h = Some (workspaceId r))).

(** The updater [(prev) => (sameStatusState(prev, nextStatus) ? prev : nextStatus)]. *)
Definition keepIfSame (nextStatus prev : StatusObj) : StatusObj :=
  if sameStatusState (val prev) (val nextStatus) then prev else nextStatus.

(** The [.then] handler (lines 90-106). *)
Definition onFulfilled (r : Request) (data : RawStatus) (h : Hook) : Hook :=
  if isStale r h then h
  else
    let cached := cachedStatusRef h !! workspaceId r in
    let resolvedBranchName := resolveBranchName (raw_branchName data) (val <$> cached) in
    let '(nextStatus, h) := newObject (workspaceId r) (of_raw data resolvedBranchName) h in
    let h := setStatus (keepIfSame nextStatus) h in
    cacheSet (workspaceId r) nextStatus h.

(** The [.catch] handler (lines 107-121); [console.error] leaves the
    state alone. *)
Definition onRejected (r : Request) (err : Rejection) (h : Hook) : Hook :=
  if isStale r h then h
  else
    let message := messageOf err in
    let cached := cachedStatusRef h !! workspaceId r in
    let '(nextStatus, h) :=
      match cached with
      | Some cached => newObject (workspaceId r) (with_error (val cached) (Some message)) h
      | None =>
          newObject (workspaceId r)
            (with_branch_error (val emptyStatus) js:"unknown" (Some message)) h
      end in
    setStatus (keepIfSame nextStatus) h.

(** The synchronous part of [refresh], called from a closure whose
    [workspaceId] is [ws]: the state after the call, and the request it
    issued if any. *)
Definition refresh (ws : option Js.str) (h : Hook) : Hook * option Request :=
  match ws with
  | None | Some [] => (setStatus (λ _, emptyStatus) h, None)
  | Some id =>
      let requestId := (requestIdRef h + 1)%N in
      (setRequestId requestId h, Some {| requestId := requestId; workspaceId := id |})
  end.

(** *** The promise chain [getGitStatus(..).then(..).catch(..)] *)

Inductive Outcome :=
  | Resolves (data : RawStatus)
  | Rejects (err : Rejection).

Inductive Settled :=
  | Fulfilled
  | RejectedWith (err : Rejection).

(** How the call of a handler ends: it returns, or it throws [err]. *)
Inductive Completion :=
  | Returns
  | Throws (err : Rejection).

(** The promise a handler's call settles: fulfilled when the handler
    returns, rejected with what it throws otherwise. *)
Definition settledBy (c : Completion) : Settled :=
  match c with
  | Returns => Fulfilled
  | Throws err => RejectedWith err
  end.

(** [promise.then(f)] *)
Definition promiseThen (f : RawStatus → Hook → Hook * Completion) (o : Outcome)
    (h : Hook) : Hook * Settled :=
  match o with
  | Resolves data => let '(h, c) := f data h in (h, settledBy c)
  | Rejects err => (h, RejectedWith err)
  end.

(** [promise.catch(g)] *)
Definition promiseCatch (g : Rejection → Hook → Hook * Completion)
    (p : Hook * Settled) : Hook * Settled :=
  match p with
  | (h, Fulfilled) => (h, Fulfilled)
  | (h, RejectedWith err) => let '(h, c) := g err h in (h, settledBy c)
  end.

(** The two handlers as [refresh] passes them to [.then] and [.catch]:
    neither body holds a [throw] or an operation that throws on the
    values the types allow, and both return [undefined]. *)
Definition thenHandler (r : Request) (data : RawStatus) (h : Hook)
  : Hook * Completion :=
  (onFulfilled r data h, Returns).

Definition catchHandler (r : Request) (err : Rejection) (h : Hook)
  : Hook * Completion :=
  (onRejected r err h, Returns).

(** The promise [refresh] returns, once [getGitStatus] has settled with
    [o]. *)
Definition settle (r : Request) (o : Outcome) (h : Hook) : Hook * Settled :=
  promiseCatch (catchHandler r) (promiseThen (thenHandler r) o h).

(** ** The effects (lines 124-153) *)

(** First effect (lines 124-135). *)
Definition workspaceEffect (ws : option Js.str) (h : Hook) : Hook :=
  if negb (bool_decide (workspaceIdRef h = ws)) then
    let h := setWorkspaceId ws h in
    let h := setRequestId (requestIdRef h + 1) h in
    match ws with
    | None | Some [] => setStatus (λ _, emptyStatus) h
    | Some id =>
        let cached := cachedStatusRef h !! id in
        setStatus (λ _, default emptyStatus cached) h
    end
  else h.

(** One mounted hook: its state, the [workspaceId] of the last render
    (the one the current [refresh] closed over), the [workspaceId] the
    effects last ran with ([None] before they first run), the fetches in
    flight, and the workspace id the running interval's [refresh] closed
    over, if an interval runs. *)
Record World := mkWorld {
  hook : Hook;
  rendered : option Js.str;
  effectDeps : option (option Js.str);
  pending : list Request;
  interval : option Js.str;
}.

Definition withHook (h : Hook) (w : World) : World :=
  {| hook := h;
     rendered := rendered w;
     effectDeps := effectDeps w;
     pending := pending w;
     interval := interval w |}.

Definition withInterval (i : option Js.str) (w : World) : World :=
  {| hook := hook w;
     rendered := rendered w;
     effectDeps := effectDeps w;
     pending := pending w;
     interval := i |}.

(** [fetchStatus], from a closure whose [workspaceId] is [ws]. The
    promise, if any, joins the fetches in flight; the [.catch(() => {})]
    put on it has nothing to catch (see [settle]). *)
Definition fetchStatus (ws : option Js.str) (w : World) : World :=
  let '(h, issued) := refresh ws (hook w) in
  {| hook := h;
     rendered := rendered w;
     effectDeps := effectDeps w;
     pending := pending w ++ option_list issued;
     interval := interval w |}.

(** Second effect (lines 137-153). *)
Definition pollingEffect (ws : option Js.str) (w : World) : World :=
  match ws with
  | None | Some [] => withInterval None (withHook (setStatus (λ _, emptyStatus) (hook w)) w)
  | Some id => withInterval (Some id) (fetchStatus ws w)
  end.

(** React runs the effects of the last render: nothing when
    [workspaceId] is the one they last ran with (both dependency lists
    change with [workspaceId] alone, [refresh] being rebuilt only then);
    otherwise the cleanup of the second effect ([clearInterval]), then the
    two effects in order. *)
Definition runEffects (w : World) : World :=
  if bool_decide (effectDeps w = Some (rendered w)) then w
  else
    let ws := rendered w in
    pollingEffect ws
      {| hook := workspaceEffect ws (hook w);
         rendered := ws;
         effectDeps := Some ws;
         pending := pending w;
         interval := None |}.

(** A render with [workspaceId = ws]. React runs the effects still due
    from the previous render before it renders again. *)
Definition render (ws : option Js.str) (w : World) : World :=
  let w := runEffects w in
  {| hook := hook w;
     rendered := ws;
     effectDeps := effectDeps w;
     pending := pending w;
     interval := interval w |}.

(** ** The transition system

    Between a render and its effects anything else may happen: the old
    interval may fire, a fetch may settle, a caller may refresh. A caller
    may hold the [refresh] of any render, so [CallRefresh] takes any
    workspace id. *)

Inductive Event :=
  | Render (ws : option Js.str)           (* the parent passes a workspace *)
  | Effects                               (* the effects of the last render run *)
  | Tick                                  (* the interval fires *)
  | CallRefresh (ws : option Js.str)      (* a caller invokes a [refresh] it holds *)
  | Settle (r : Request) (o : Outcome).   (* a fetch in flight settles *)

Definition step (e : Event) (w : World) : World :=
  match e with
  | Render ws => render ws w
  | Effects => runEffects w
  | Tick =>
      match interval w with
      | Some id => fetchStatus (Some id) w
      | None => w
      end
  | CallRefresh ws => fetchStatus ws w
  | Settle r o =>
      if bool_decide (r ∈ pending w) then
        {| hook := (settle r o (hook w)).1;
           rendered := rendered w;
           effectDeps := effectDeps w;
           pending := filter (λ r', r' ≠ r) (pending w);
           interval := interval w |}
      else w
  end.

(** The first render, its effects still to run. *)
Definition mount (ws : option Js.str) : World :=
  {| hook := {| status := emptyStatus;
                requestIdRef := 0;
                workspaceIdRef := ws;
                cachedStatusRef := ∅;
                allocated := 1 |};
     rendered := ws;
     effectDeps := None;
     pending := [];
     interval := None |}.

Definition run (events : list Event) (w : World) : World :=
  foldl (λ w e, step e w) w events.

Inductive reachable : World → Prop :=
  | reachable_mount ws : reachable (mount ws)
  | reachable_step e w : reachable w → reachable (step e w).

(** ** Predicates the statements below use *)

(** Equality of two file sequences as section 4.1 of the specification
    words it: same length, and at each index the same [path], [status],
    [additions] and [deletions]. *)
Definition sameSequenceSpec (a b : list GitFileStatus) : Prop :=
  length a = length b
  ∧ ∀ i x y, a !! i = Some x → b !! i = Some y →
      path x = path y ∧ fstatus x = fstatus y
      ∧ additions x = additions y ∧ deletions x = deletions y.

(** Equality of two snapshots as section 4.1 of the specification words it. *)
Definition snapshotEqualSpec (a b : GitStatusState) : Prop :=
  branchName a = branchName b
  ∧ error a = error b
  ∧ totalAdditions a = totalAdditions b
  ∧ totalDeletions a = totalDeletions b
  ∧ sameSequenceSpec (files a) (files b)
  ∧ sameSequenceSpec (stagedFiles a) (stagedFiles b)
  ∧ sameSequenceSpec (unstagedFiles a) (unstagedFiles b).

(** A branch name that is neither empty nor the sentinel. *)
Definition knownBranch (s : Js.str) : Prop := s ≠ [] ∧ s ≠ js:"unknown".

(** The object the [.then] handler builds. *)
Definition nextOnFulfilled (r : Request) (data : RawStatus) (h : Hook) : StatusObj :=
  {| oid := allocated h;
     origin := Some (workspaceId r);
     val := of_raw data
              (resolveBranchName (raw_branchName data)
                 (val <$> cachedStatusRef h !! workspaceId r)) |}.

(** The object the [.catch] handler builds. *)
Definition nextOnRejected (r : Request) (err : Rejection) (h : Hook) : StatusObj :=
  {| oid := allocated h;
     origin := Some (workspaceId r);
     val := match cachedStatusRef h !! workspaceId r with
            | Some cached => with_error (val cached) (Some (messageOf err))
            | None =>
                with_branch_error emptyFields js:"unknown" (Some (messageOf err))
            end |}.

(** What every object the hook holds satisfies: built before the
    allocation counter, a trimmed branch name. *)
Definition wellFormedObj (h : Hook) (o : StatusObj) : Prop :=
  (oid o < allocated h)%N ∧ Js.trimmed (branchName (val o)).

(** The invariant of the transition system. *)
Record invariant (w : World) : Prop := mkInvariant {
  inv_active : workspaceIdRef (hook w) = default (rendered w) (effectDeps w);
  inv_status_wf : wellFormedObj (hook w) (status (hook w));
  inv_status_origin :
    origin (status (hook w)) = None
    ∨ origin (status (hook w)) = workspaceIdRef (hook w);
  inv_cache :
    ∀ ws o, cachedStatusRef (hook w) !! ws = Some o →
      ws ≠ [] ∧ origin o = Some ws ∧ error (val o) = None
      ∧ wellFormedObj (hook w) o;
  inv_pending :
    ∀ r, r ∈ pending w →
      workspaceId r ≠ [] ∧ (requestId r ≤ requestIdRef (hook w))%N;
  inv_interval :
    ∀ id, interval w = Some id → id ≠ [] ∧ workspaceIdRef (hook w) = Some id;
}.

(** The object a handler of [r] builds for outcome [o]. *)
Definition nextStatusOf (r : Request) (o : Outcome) (h : Hook) : StatusObj :=
  match o with
  | Resolves data => nextOnFulfilled r data h
  | Rejects err => nextOnRejected r err h
  end.

(** An incoming branch name that is absent, or empty or the sentinel once
    trimmed. *)
Definition unknownIncoming (incoming : option Js.str) : Prop :=
  match incoming with
  | None => True
  | Some i => Js.trim i = [] ∨ Js.trim i = js:"unknown"
  end.

(** ** Scenarios

    Two workspaces, one changed file, and the worlds the examples below
    run in. *)

Definition wsA : Js.str := js:"workspace-a".
Definition wsB : Js.str := js:"workspace-b".

Definition fileA : GitFileStatus :=
  {| path := js:"a.ts"; fstatus := js:"modified"; additions := 3; deletions := 1 |}.

Definition rawWith (branch : option Js.str) : RawStatus :=
  {| raw_branchName := branch;
     raw_files := [fileA];
     raw_stagedFiles := [];
     raw_unstagedFiles := [fileA];
     raw_totalAdditions := 3;
     raw_totalDeletions := 1 |}.

Definition rawMain : RawStatus := rawWith (Some js:"main").

Definition request (n : N) (ws : Js.str) : Request :=
  {| requestId := n; workspaceId := ws |}.

(** Mounted on A, the effects have run: request 1 is in flight, nothing
    is cached. *)
Definition worldMounted : World := run [Effects] (mount (Some wsA)).

(** The first fetch for A has succeeded with branch "main". *)
Definition worldCached : World :=
  run [Settle (request 1 wsA) (Resolves rawMain)] worldMounted.

(** The interval has fired once more: request 2 for A is in flight. *)
Definition worldPolling : World := run [Tick] worldCached.

(** The parent switched to B while request 2 for A was in flight. *)
Definition worldSwitched : World := run [Render (Some wsB); Effects] worldPolling.

(** Mounted on A, and a caller refreshed before request 1 settled:
    request 1 is superseded by request 2. *)
Definition worldSuperseded : World := run [CallRefresh (Some wsA)] worldMounted.

(** ** Predicates of the further properties *)

(** The fields on display are accounted for by the recorded workspace
    alone: they are the empty default, or the fields of that workspace's
    cache entry, with or without an error message, or, when that workspace
    has no cache entry, the "unknown" snapshot of a failure. *)
Definition displayExplained (h : Hook) : Prop :=
  val (status h) = emptyFields
  ∨ (∃ id c, workspaceIdRef h = Some id
             ∧ cachedStatusRef h !! id = Some c
             ∧ (val (status h) = val c
                ∨ ∃ message, val (status h) = with_error (val c) (Some message)))
  ∨ (∃ id message, workspaceIdRef h = Some id
                   ∧ cachedStatusRef h !! id = None
                   ∧ val (status h)
                     = with_branch_error emptyFields js:"unknown" (Some message)).

(** The workspace an interval polls, given the [workspaceId] the effects
    last ran with: none before the effects ran, none for [null] and for
    the empty string. *)
Definition pollingTarget (deps : option (option Js.str)) : option Js.str :=
  match deps with
  | Some (Some (c :: id)) => Some (c :: id)
  | _ => None
  end.

(** No workspace: [!workspaceId] holds. *)
Definition noWorkspace (ws : option Js.str) : Prop := ws = None ∨ ws = Some [].

(** * The other hooks and helpers of the repository *)

(** [s.slice(from, to)] for indices that are natural numbers: both are
    clamped to the length, and the result is empty when [to <= from]. *)
Definition jsSlice (s : Js.str) (from to : nat) : Js.str :=
  take (to - from) (drop from s).

(** [/\s/.test(s[index])]: the character class is the white space
    [trim] strips; a read past the end is [undefined], tested as the
    string "undefined", which holds no white space. *)
Definition isSpaceAt (s : Js.str) (index : nat) : bool :=
  match s !! index with
  | Some c => Js.isWhiteSpace c
  | None => false
  end.

(** ** Inserting text into the composer ([useComposerInsert]) *)

Module ComposerInsert.

(** What the callback reads of the textarea, when there is one. *)
Record Textarea := mkTextarea {
  selectionStart : nat;
  selectionEnd : nat;
}.

(** What the callback does: the text it hands to [onDraftChange], and
    the position it gives [setSelectionRange] on the next frame. *)
Record Inserted := mkInserted {
  nextText : Js.str;
  cursor : nat;
}.

(** [/\s$/.test(s)] *)
Definition endsWithSpace (s : Js.str) : bool :=
  match last s with
  | Some c => Js.isWhiteSpace c
  | None => false
  end.

(** [/^\s/.test(s)] *)
Definition startsWithSpace (s : Js.str) : bool :=
  match head s with
  | Some c => Js.isWhiteSpace c
  | None => false
  end.

Definition space : Js.str := js:" ".

(** The callback the hook returns, applied to [insertText]; [draftText]
    is [draftTextRef.current] and [textarea] is [textareaRef.current].
    [None]: the hook is disabled and nothing is called. *)
Definition insert (isEnabled : bool) (draftText : Js.str) (textarea : option Textarea)
    (insertText : Js.str) : option Inserted :=
  if negb isEnabled then None
  else
    let currentText := draftText in
    let start := from_option selectionStart (length currentText) textarea in
    let end_ := from_option selectionEnd start textarea in
    let before := jsSlice currentText 0 start in
    let after := drop end_ currentText in
    let needsSpaceBefore := negb (bool_decide (length before = 0)) && negb (endsWithSpace before) in
    let needsSpaceAfter := negb (bool_decide (length after = 0)) && negb (startsWithSpace after) in
    let prefix := if needsSpaceBefore then space else [] in
    let suffix := if needsSpaceAfter then space else [] in
    Some {| nextText := before ++ prefix ++ insertText ++ suffix ++ after;
            cursor := length before + length prefix + length insertText
                      + (if needsSpaceAfter then 1 else 0) |}.

End ComposerInsert.

(** ** The composer's autocomplete ([useComposerAutocomplete]) *)

Module Autocomplete.

Record AutocompleteItem := mkItem {
  id : Js.str;
  label : Js.str;
  description : option Js.str;
  insertText : option Js.str;
}.

Record AutocompleteTrigger := mkTrigger {
  trigger : Js.str;
  items : list AutocompleteItem;
}.

Record AutocompleteRange := mkRange {
  rangeStart : nat;
  rangeEnd : nat;
}.

Record AutocompleteState := mkAutocomplete {
  active : bool;
  activeTrigger : option Js.str;
  query : Js.str;
  range : option AutocompleteRange;
}.

Definition inactive : AutocompleteState :=
  {| active := false; activeTrigger := None; query := []; range := None |}.

(** The loop runs [index] down from [cursor - 1] while the character
    there is no white space, and answers [index + 1]. *)
Fixpoint getTokenStart (text : Js.str) (cursor : nat) : nat :=
  match cursor with
  | O => 0
  | S index => if isSpaceAt text index then S index else getTokenStart text index
  end.

Definition resolveAutocompleteState (text : Js.str) (cursor : nat)
    (triggers : list AutocompleteTrigger) : AutocompleteState :=
  let tokenStart := getTokenStart text cursor in
  if bool_decide (length text ≤ tokenStart) then inactive
  else
    match text !! tokenStart with
    | None => inactive
    | Some c =>
        let triggerChar := [c] in
        match find (λ entry, bool_decide (trigger entry = triggerChar)) triggers with
        | None => inactive
        | Some matched =>
            {| active := true;
               activeTrigger := Some triggerChar;
               query := jsSlice text (tokenStart + 1) cursor;
               range := Some {| rangeStart := tokenStart + 1; rangeEnd := cursor |} |}
        end
    end.

(** The [state] memo of the hook: [selectionStart] is [null] or a number. *)
Definition autocompleteState (text : Js.str) (selectionStart : option Z)
    (triggers : list AutocompleteTrigger) : AutocompleteState :=
  match selectionStart with
  | None => inactive
  | Some position =>
      if (position <? 0)%Z then inactive
      else resolveAutocompleteState text (Z.to_nat position) triggers
  end.

(** The numbers of the highlight index. A JS number is an IEEE 754
    double; the index arithmetic starts from integers, and the doubles it
    then meets are integers (every double of magnitude 2^53 or more is
    one), the two infinities and NaN. The two zeros are one value here:
    they are equal under [===] and index the same element. *)
Inductive Number :=
  | Integer (z : Z)
  | Infinite (negative : bool)
  | NotANumber.

(** [Number.isSafeInteger]: the integers every one of which is a double
    and whose sums, while they stay in the range, are exact. *)
Definition safeInteger (z : Z) : Prop := (- 2 ^ 53 < z < 2 ^ 53)%Z.

(** The double that is nearest to the integer [z]: [z] itself below 2^53;
    from there on a mantissa of 53 bits, rounded to nearest with ties to
    the even mantissa; an infinity from 2^1024 on. *)
Definition roundToDouble (z : Z) : Number :=
  let a := Z.abs z in
  if (a <? 2 ^ 53)%Z then Integer z
  else
    let e := (Z.log2 a - 52)%Z in
    let q := (a / 2 ^ e)%Z in
    let r := (a mod 2 ^ e)%Z in
    let half := (2 ^ (e - 1))%Z in
    let mantissa :=
      if (r <? half)%Z || ((r =? half)%Z && Z.even q) then q else (q + 1)%Z in
    let rounded := (mantissa * 2 ^ e)%Z in
    if (2 ^ 1024 <=? rounded)%Z then Infinite (z <? 0)%Z
    else Integer (Z.sgn z * rounded).

(** [a + b] *)
Definition numberAdd (a b : Number) : Number :=
  match a, b with
  | NotANumber, _ | _, NotANumber => NotANumber
  | Infinite s, Infinite s' => if Bool.eqb s s' then Infinite s else NotANumber
  | Infinite s, Integer _ | Integer _, Infinite s => Infinite s
  | Integer x, Integer y => roundToDouble (x + y)
  end.

(** [a % b]: the remainder takes the sign of the dividend and is exact. *)
Definition numberRem (a b : Number) : Number :=
  match a, b with
  | NotANumber, _ | _, NotANumber => NotANumber
  | Infinite _, _ => NotANumber
  | Integer x, Infinite _ => Integer x
  | Integer x, Integer y => if (y =? 0)%Z then NotANumber else Integer (Z.rem x y)
  end.

(** [moveHighlight(delta)] on a highlight index [prev], with
    [matchesLength] matches: the index the updater of [setHighlightIndex]
    returns, [prev] itself when there are no matches and nothing is
    called. *)
Definition moveHighlight (matchesLength : nat) (delta prev : Number) : Number :=
  if bool_decide (matchesLength = 0) then prev
  else
    let length := Integer (Z.of_nat matchesLength) in
    numberRem (numberAdd (numberAdd prev delta) length) length.

(** The largest double, [Number.MAX_VALUE]. *)
Definition MAX_VALUE : Z := ((2 ^ 53 - 1) * 2 ^ 971)%Z.

(** The triggers of the examples: "@" and "/". *)
Definition atTrigger : list AutocompleteTrigger :=
  [{| trigger := js:"@"; items := [] |}; {| trigger := js:"/"; items := [] |}].

End Autocomplete.

(** ** Workspace overrides of the settings screen ([SettingsCodexSection]) *)

Module Overrides.

Definition normalizeOverrideValue (value : Js.str) : option Js.str :=
  let trimmed := Js.trim value in
  if Js.truthy (Some trimmed) then Some trimmed else None.


End Overrides.

(** ** The global config.toml hook ([useGlobalCodexConfigToml]) *)

Module ConfigToml.

Record GlobalCodexConfigState := mkState {
  content : Js.str;
  exists_ : bool;
  truncated : bool;
  isLoading : bool;
  isSaving : bool;
  error : option Js.str;
}.

Definition EMPTY_STATE : GlobalCodexConfigState :=
  {| content := [];
     exists_ := false;
     truncated := false;
     isLoading := false;
     isSaving := false;
     error := None |}.

(** What [readGlobalCodexConfigToml] resolves with. *)
Record Response := mkResponse {
  response_content : Js.str;
  response_exists : bool;
  response_truncated : bool;
}.

(** A call of [pushErrorToast]. *)
Record Toast := mkToast {
  title : Js.str;
  message : Js.str;
}.

(** "Couldn't load global config.toml" and "Couldn't save global
    config.toml", with the typographic apostrophe (U+2019) of the source. *)
Definition loadFailedTitle : Js.str :=
  js:"Couldn" ++ [8217%N] ++ js:"t load global config.toml".
Definition saveFailedTitle : Js.str :=
  js:"Couldn" ++ [8217%N] ++ js:"t save global config.toml".

(** [useState], the three [useRef]s, and the toasts pushed so far. *)
Record Hook := mkHook {
  state : GlobalCodexConfigState;
  lastLoadedContentRef : Js.str;
  requestIdRef : N;
  inFlightRef : bool;
  toasts : list Toast;
}.

Definition setState (update : GlobalCodexConfigState → GlobalCodexConfigState)
    (h : Hook) : Hook :=
  {| state := update (state h);
     lastLoadedContentRef := lastLoadedContentRef h;
     requestIdRef := requestIdRef h;
     inFlightRef := inFlightRef h;
     toasts := toasts h |}.

Definition setLastLoaded (value : Js.str) (h : Hook) : Hook :=
  {| state := state h;
     lastLoadedContentRef := value;
     requestIdRef := requestIdRef h;
     inFlightRef := inFlightRef h;
     toasts := toasts h |}.

Definition setRequestId (n : N) (h : Hook) : Hook :=
  {| state := state h;
     lastLoadedContentRef := lastLoadedContentRef h;
     requestIdRef := n;
     inFlightRef := inFlightRef h;
     toasts := toasts h |}.

Definition setInFlight (b : bool) (h : Hook) : Hook :=
  {| state := state h;
     lastLoadedContentRef := lastLoadedContentRef h;
     requestIdRef := requestIdRef h;
     inFlightRef := b;
     toasts := toasts h |}.

Definition pushErrorToast (t : Toast) (h : Hook) : Hook :=
  {| state := state h;
     lastLoadedContentRef := lastLoadedContentRef h;
     requestIdRef := requestIdRef h;
     inFlightRef := inFlightRef h;
     toasts := toasts h ++ [t] |}.

(** [{ ...prev, isLoading: l, error: e }] *)
Definition withLoading (l : bool) (e : option Js.str) (prev : GlobalCodexConfigState)
  : GlobalCodexConfigState :=
  {| content := content prev;
     exists_ := exists_ prev;
     truncated := truncated prev;
     isLoading := l;
     isSaving := isSaving prev;
     error := e |}.

(** [{ ...prev, isSaving: s, error: e }] *)
Definition withSaving (s : bool) (e : option Js.str) (prev : GlobalCodexConfigState)
  : GlobalCodexConfigState :=
  {| content := content prev;
     exists_ := exists_ prev;
     truncated := truncated prev;
     isLoading := isLoading prev;
     isSaving := s;
     error := e |}.

(** [{ ...prev, exists: true, truncated: false, isSaving: false, error: null }] *)
Definition withSaved (prev : GlobalCodexConfigState) : GlobalCodexConfigState :=
  {| content := content prev;
     exists_ := true;
     truncated := false;
     isLoading := isLoading prev;
     isSaving := false;
     error := None |}.

(** [{ ...prev, content: value }] *)
Definition withContent (value : Js.str) (prev : GlobalCodexConfigState)
  : GlobalCodexConfigState :=
  {| content := value;
     exists_ := exists_ prev;
     truncated := truncated prev;
     isLoading := isLoading prev;
     isSaving := isSaving prev;
     error := error prev |}.

(** How an awaited promise settles. *)
Inductive Settles (A : Type) :=
  | Resolved (value : A)
  | Rejected (err : Rejection).
Global Arguments Resolved {A} value.
Global Arguments Rejected {A} err.

(** [refresh] up to its [await]: the state after it, and the number of
    the read it issued, if it did not return at the guard. *)
Definition refreshStart (h : Hook) : Hook * option N :=
  if inFlightRef h then (h, None)
  else
    let h := setInFlight true h in
    let h := setRequestId (requestIdRef h + 1) h in
    let requestId := requestIdRef h in
    let h := setState (withLoading true None) h in
    (h, Some requestId).

(** [refresh] from its [await] on, [finally] included. *)
Definition refreshSettle (requestId : N) (outcome : Settles Response) (h : Hook) : Hook :=
  let h :=
    match outcome with
    | Resolved response =>
        if negb (bool_decide (requestId = requestIdRef h)) then h
        else
          let h := setLastLoaded (response_content response) h in
          setState (λ _, {| content := response_content response;
                            exists_ := response_exists response;
                            truncated := response_truncated response;
                            isLoading := false;
                            isSaving := false;
                            error := None |}) h
    | Rejected err =>
        if negb (bool_decide (requestId = requestIdRef h)) then h
        else
          let message := messageOf err in
          let h := setState (withLoading false (Some message)) h in
          pushErrorToast {| title := loadFailedTitle; message := message |} h
    end in
  setInFlight false h.

(** [save] up to its [await]; [content] is the [state.content] its closure
    holds. *)
Definition saveStart (h : Hook) : Hook * N :=
  let h := setRequestId (requestIdRef h + 1) h in
  let requestId := requestIdRef h in
  let h := setState (withSaving true None) h in
  (h, requestId).

(** [save] from its [await] on: the state, and what the promise resolves
    with. *)
Definition saveSettle (requestId : N) (saved : Js.str) (outcome : Settles unit)
    (h : Hook) : Hook * bool :=
  match outcome with
  | Resolved _ =>
      if negb (bool_decide (requestId = requestIdRef h)) then (h, false)
      else
        let h := setLastLoaded saved h in
        let h := setState withSaved h in
        (h, true)
  | Rejected err =>
      if negb (bool_decide (requestId = requestIdRef h)) then (h, false)
      else
        let message := messageOf err in
        let h := setState (withSaving false (Some message)) h in
        let h := pushErrorToast {| title := saveFailedTitle; message := message |} h in
        (h, false)
  end.

Definition setContent (value : Js.str) (h : Hook) : Hook :=
  setState (withContent value) h.

(** The mounted hook with the calls in flight, and the memo cell of
    [isDirty]: the [state.content] it was last computed for, and the value
    computed. *)
Record World := mkWorld {
  hook : Hook;
  reads : list N;
  writes : list (N * Js.str);
  dirtyDeps : Js.str;
  isDirty : bool;
}.

(** A render: [useMemo] computes [isDirty] again when [state.content] is
    not the one it was computed for. *)
Definition render (w : World) : World :=
  if bool_decide (content (state (hook w)) = dirtyDeps w) then w
  else
    {| hook := hook w;
       reads := reads w;
       writes := writes w;
       dirtyDeps := content (state (hook w));
       isDirty :=
         negb (bool_decide (content (state (hook w)) = lastLoadedContentRef (hook w))) |}.

Definition withHook (h : Hook) (w : World) : World :=
  {| hook := h;
     reads := reads w;
     writes := writes w;
     dirtyDeps := dirtyDeps w;
     isDirty := isDirty w |}.

(** What happens to a mounted hook. [CallSave saved]: a caller invokes a
    [save] whose closure holds [saved]. Every event ends in a render. *)
Inductive Event :=
  | CallRefresh
  | ReadSettles (requestId : N) (outcome : Settles Response)
  | CallSave (saved : Js.str)
  | WriteSettles (requestId : N) (saved : Js.str) (outcome : Settles unit)
  | SetContent (value : Js.str).

(** The handler of an event, before the render. *)
Definition handle (e : Event) (w : World) : World :=
  match e with
  | CallRefresh =>
      let '(h, issued) := refreshStart (hook w) in
      {| hook := h;
         reads := reads w ++ option_list issued;
         writes := writes w;
         dirtyDeps := dirtyDeps w;
         isDirty := isDirty w |}
  | ReadSettles requestId outcome =>
      if bool_decide (requestId ∈ reads w) then
        {| hook := refreshSettle requestId outcome (hook w);
           reads := filter (λ n, n ≠ requestId) (reads w);
           writes := writes w;
           dirtyDeps := dirtyDeps w;
           isDirty := isDirty w |}
      else w
  | CallSave saved =>
      let '(h, requestId) := saveStart (hook w) in
      {| hook := h;
         reads := reads w;
         writes := writes w ++ [(requestId, saved)];
         dirtyDeps := dirtyDeps w;
         isDirty := isDirty w |}
  | WriteSettles requestId saved outcome =>
      if bool_decide ((requestId, saved) ∈ writes w) then
        {| hook := (saveSettle requestId saved outcome (hook w)).1;
           reads := reads w;
           writes := filter (λ p, p ≠ (requestId, saved)) (writes w);
           dirtyDeps := dirtyDeps w;
           isDirty := isDirty w |}
      else w
  | SetContent value => withHook (setContent value (hook w)) w
  end.

Definition step (e : Event) (w : World) : World := render (handle e w).

(** The first render, then the effect that calls [refresh]. *)
Definition mount : World :=
  step CallRefresh
    {| hook := {| state := EMPTY_STATE;
                  lastLoadedContentRef := [];
                  requestIdRef := 0;
                  inFlightRef := false;
                  toasts := [] |};
       reads := [];
       writes := [];
       dirtyDeps := [];
       isDirty := false |}.

Definition run (events : list Event) (w : World) : World :=
  foldl (λ w e, step e w) w events.

Inductive reachable : World → Prop :=
  | reachable_mount : reachable mount
  | reachable_step e w : reachable w → reachable (step e w).

(** At most one read is in flight, and [inFlightRef] says whether one is. *)
Definition readsTracked (w : World) : Prop :=
  (reads w = [] ∧ inFlightRef (hook w) = false)
  ∨ (∃ requestId, reads w = [requestId] ∧ inFlightRef (hook w) = true).

(** The file of the examples. *)
Definition loaded : Response :=
  {| response_content := js:"model = 1"; response_exists := true;
     response_truncated := false |}.

End ConfigToml.

(** * Facts about the definitions *)

(** ** Trimming *)

Lemma trimStart_head (s : Js.str) c :
  head (Js.trimStart s) = Some c → Js.isWhiteSpace c = false.
Proof.
  induction s as [|d s IH]; simpl; [done|].
  destruct (Js.isWhiteSpace d) eqn:Hd; [done|].
  simpl. by intros [= <-].
Qed.

Lemma trimStart_suffix (s : Js.str) :
  ∃ k, s = k ++ Js.trimStart s.
Proof.
  induction s as [|d s [k IH]]; simpl; [by exists []|].
  destruct (Js.isWhiteSpace d).
  - exists (d :: k). simpl. by f_equal.
  - by exists [].
Qed.

Lemma trimStart_id (s : Js.str) :
  (∀ c, head s = Some c → Js.isWhiteSpace c = false) → Js.trimStart s = s.
Proof.
  destruct s as [|d s]; simpl; [done|].
  intros H. by rewrite (H d eq_refl).
Qed.

Lemma trimEnd_prefix (s : Js.str) :
  ∃ k, s = Js.trimEnd s ++ k.
Proof.
  unfold Js.trimEnd.
  destruct (trimStart_suffix (reverse s)) as [k Hk].
  exists (reverse k).
  rewrite <- reverse_app, <- Hk. by rewrite reverse_involutive.
Qed.

Lemma trimEnd_last (s : Js.str) c :
  last (Js.trimEnd s) = Some c → Js.isWhiteSpace c = false.
Proof.
  unfold Js.trimEnd. rewrite last_reverse. apply trimStart_head.
Qed.

Lemma trimEnd_head (s : Js.str) c :
  head (Js.trimEnd s) = Some c → head s = Some c.
Proof.
  destruct (trimEnd_prefix s) as [k Hk].
  intros H. rewrite Hk.
  destruct (Js.trimEnd s); simpl in *; [done|exact H].
Qed.

Lemma trimEnd_id (s : Js.str) :
  (∀ c, last s = Some c → Js.isWhiteSpace c = false) → Js.trimEnd s = s.
Proof.
  intros H. unfold Js.trimEnd.
  rewrite trimStart_id; [apply reverse_involutive|].
  intros c. rewrite head_reverse. apply H.
Qed.

Lemma trim_trimmed (s : Js.str) : Js.trimmed (Js.trim s).
Proof.
  split; intros c Hc.
  - apply trimEnd_head in Hc. by apply trimStart_head in Hc.
  - by apply trimEnd_last in Hc.
Qed.

Lemma trim_id (s : Js.str) : Js.trimmed s → Js.trim s = s.
Proof.
  intros [Hh Hl]. unfold Js.trim.
  rewrite (trimStart_id s Hh). by apply trimEnd_id.
Qed.

Lemma trimmed_nil : Js.trimmed [].
Proof. by split. Qed.

Lemma trimmed_unknown : Js.trimmed js:"unknown".
Proof. split; intros c; vm_compute; intros [= <-]; reflexivity. Qed.

(** ** The equality predicate *)

Lemma entryDiffers_false (x y : GitFileStatus) :
  entryDiffers x y = false ↔
    path x = path y ∧ fstatus x = fstatus y
    ∧ additions x = additions y ∧ deletions x = deletions y.
Proof.
  unfold entryDiffers.
  rewrite !orb_false_iff, !negb_false_iff, !bool_decide_eq_true.
  tauto.
Qed.

Lemma entryDiffers_false_eq (x y : GitFileStatus) :
  entryDiffers x y = false ↔ x = y.
Proof.
  rewrite entryDiffers_false. split.
  - destruct x, y; simpl. intros (-> & -> & -> & ->). done.
  - by intros ->.
Qed.

Lemma sameFileStatusLoop_true (a b : list GitFileStatus) (n index : nat) :
  sameFileStatusLoop a b index n = true ↔
    ∀ i, index ≤ i < index + n →
      ∃ x y, a !! i = Some x ∧ b !! i = Some y ∧ entryDiffers x y = false.
Proof.
  revert index. induction n as [|n IH]; intros index; simpl.
  - split; [intros _ i Hi; lia | done].
  - destruct (a !! index) as [x|] eqn:Ha, (b !! index) as [y|] eqn:Hb.
    + destruct (entryDiffers x y) eqn:Hd.
      * split; [done|]. intros H.
        destruct (H index ltac:(lia)) as (x' & y' & Hx & Hy & Hxy).
        congruence.
      * rewrite IH. split.
        -- intros H i Hi. destruct (decide (i = index)) as [->|Hne].
           ++ by exists x, y.
           ++ apply H. lia.
        -- intros H i Hi. apply H. lia.
    + split; [done|]. intros H.
      destruct (H index ltac:(lia)) as (x' & y' & Hx & Hy & Hxy). congruence.
    + split; [done|]. intros H.
      destruct (H index ltac:(lia)) as (x' & y' & Hx & Hy & Hxy). congruence.
    + split; [done|]. intros H.
      destruct (H index ltac:(lia)) as (x' & y' & Hx & Hy & Hxy). congruence.
Qed.

Lemma sameFileStatusLists_spec (a b : list GitFileStatus) :
  sameFileStatusLists a b = true ↔ sameSequenceSpec a b.
Proof.
  unfold sameFileStatusLists, sameSequenceSpec.
  case_bool_decide as Hlen; simpl.
  - rewrite sameFileStatusLoop_true. split.
    + intros H. split; [done|]. intros i x y Hx Hy.
      destruct (H i) as (x' & y' & Hx' & Hy' & Hd).
      { apply lookup_lt_Some in Hx. lia. }
      apply entryDiffers_false. congruence.
    + intros [_ H] i Hi.
      destruct (lookup_lt_is_Some_2 a i) as [x Hx]; [lia|].
      destruct (lookup_lt_is_Some_2 b i) as [y Hy]; [lia|].
      exists x, y. split_and!; [done..|].
      apply entryDiffers_false. eauto.
  - split; [done|]. by intros [? _].
Qed.

Lemma sameSequenceSpec_eq (a b : list GitFileStatus) :
  sameSequenceSpec a b ↔ a = b.
Proof.
  split; [|intros ->].
  - intros [Hlen H]. apply list_eq_same_length with (length a); [done..|].
    intros i x y _ Hx Hy. apply entryDiffers_false_eq, entryDiffers_false. eauto.
  - split; [done|]. intros i x y Hx Hy.
    apply entryDiffers_false, entryDiffers_false_eq. congruence.
Qed.

Lemma sameFileStatusLists_refl (a : list GitFileStatus) :
  sameFileStatusLists a a = true.
Proof. by apply sameFileStatusLists_spec, sameSequenceSpec_eq. Qed.

Lemma sameStatusState_spec (a b : GitStatusState) :
  sameStatusState a b = true ↔ snapshotEqualSpec a b.
Proof.
  unfold sameStatusState, snapshotEqualSpec.
  rewrite !andb_true_iff, !bool_decide_eq_true, !sameFileStatusLists_spec.
  tauto.
Qed.

Lemma sameStatusState_eq (a b : GitStatusState) :
  sameStatusState a b = true ↔ a = b.
Proof.
  rewrite sameStatusState_spec. unfold snapshotEqualSpec.
  rewrite !sameSequenceSpec_eq. split.
  - destruct a, b; simpl. intros (-> & -> & -> & -> & -> & -> & ->). done.
  - by intros ->.
Qed.

Lemma keepIfSame_val (nextStatus prev : StatusObj) :
  val (keepIfSame nextStatus prev) = val nextStatus.
Proof.
  unfold keepIfSame.
  destruct (sameStatusState _ _) eqn:H; [|done].
  by apply sameStatusState_eq in H.
Qed.

(** ** The sticky branch name *)

Lemma known_test (s : Js.str) :
  Js.truthy (Some s) && Js.differs (Some s) js:"unknown" = true ↔ knownBranch s.
Proof.
  unfold knownBranch, Js.differs, Js.truthy.
  rewrite andb_true_iff, negb_true_iff, bool_decide_eq_false.
  destruct s; split; intros [H1 H2]; split; try done; congruence.
Qed.

Lemma known_test_false (s : Js.str) :
  Js.truthy (Some s) && Js.differs (Some s) js:"unknown" = false ↔ ¬ knownBranch s.
Proof. rewrite <- known_test. by destruct (_ && _). Qed.

Lemma resolveBranchName_incoming_known incoming cached :
  knownBranch (Js.trim incoming) →
  resolveBranchName (Some incoming) cached = Js.trim incoming.
Proof.
  intros H. unfold resolveBranchName. simpl.
  by rewrite (proj2 (known_test _) H).
Qed.

Lemma resolveBranchName_sticky incoming c :
  ¬ knownBranch (default [] (Js.trim <$> incoming)) →
  knownBranch (Js.trim (branchName c)) →
  resolveBranchName incoming (Some c) = Js.trim (branchName c).
Proof.
  intros Hin Hc. unfold resolveBranchName.
  destruct incoming as [i|]; simpl in *.
  - rewrite (proj2 (known_test_false _) Hin).
    by rewrite (proj2 (known_test _) Hc).
  - by rewrite (proj2 (known_test _) Hc).
Qed.

Lemma resolveBranchName_passthrough incoming cached :
  ¬ knownBranch (default [] (Js.trim <$> incoming)) →
  (∀ c, cached = Some c → ¬ knownBranch (Js.trim (branchName c))) →
  resolveBranchName incoming cached = default [] (Js.trim <$> incoming).
Proof.
  intros Hin Hc. unfold resolveBranchName.
  assert (Js.truthy (Js.trim <$> incoming)
          && Js.differs (Js.trim <$> incoming) js:"unknown" = false) as ->.
  { destruct incoming; simpl in *; [by apply known_test_false|done]. }
  destruct cached as [c|]; simpl; [|done].
  by rewrite (proj2 (known_test_false _) (Hc c eq_refl)).
Qed.

Lemma resolveBranchName_cases incoming cached :
  (∃ i, incoming = Some i ∧ resolveBranchName incoming cached = Js.trim i)
  ∨ (∃ c, cached = Some c
          ∧ resolveBranchName incoming cached = Js.trim (branchName c))
  ∨ resolveBranchName incoming cached = [].
Proof.
  unfold resolveBranchName.
  destruct incoming as [i|], cached as [c|]; simpl;
    repeat match goal with
           | |- context [if ?b then _ else _] => destruct b
           end; eauto 6.
Qed.

Lemma resolveBranchName_trimmed incoming cached :
  Js.trimmed (resolveBranchName incoming cached).
Proof.
  destruct (resolveBranchName_cases incoming cached)
    as [(i & _ & ->)|[(c & _ & ->)| ->]];
    auto using trim_trimmed, trimmed_nil.
Qed.

(** ** The handlers *)

Lemma isStale_false r h :
  isStale r h = false ↔
    requestIdRef h = requestId r ∧ workspaceIdRef h = Some (workspaceId r).
Proof.
  unfold isStale.
  by rewrite orb_false_iff, !negb_false_iff, !bool_decide_eq_true.
Qed.

Lemma isStale_true r h :
  isStale r h = true ↔
    requestIdRef h ≠ requestId r ∨ workspaceIdRef h ≠ Some (workspaceId r).
Proof.
  unfold isStale.
  by rewrite orb_true_iff, !negb_true_iff, !bool_decide_eq_false.
Qed.

Lemma onFulfilled_stale r data h : isStale r h = true → onFulfilled r data h = h.
Proof. intros H. unfold onFulfilled. by rewrite H. Qed.

Lemma onRejected_stale r err h : isStale r h = true → onRejected r err h = h.
Proof. intros H. unfold onRejected. by rewrite H. Qed.

Lemma settle_stale r o h : isStale r h = true → settle r o h = (h, Fulfilled).
Proof.
  intros H. unfold settle, promiseThen, promiseCatch, thenHandler, catchHandler.
  destruct o; by rewrite ?onFulfilled_stale, ?onRejected_stale.
Qed.

Lemma onFulfilled_fresh r data h :
  isStale r h = false →
  onFulfilled r data h =
    {| status := keepIfSame (nextOnFulfilled r data h) (status h);
       requestIdRef := requestIdRef h;
       workspaceIdRef := workspaceIdRef h;
       cachedStatusRef := <[workspaceId r := nextOnFulfilled r data h]> (cachedStatusRef h);
       allocated := allocated h + 1 |}.
Proof. intros H. unfold onFulfilled. by rewrite H. Qed.

Lemma onRejected_fresh r err h :
  isStale r h = false →
  onRejected r err h =
    {| status := keepIfSame (nextOnRejected r err h) (status h);
       requestIdRef := requestIdRef h;
       workspaceIdRef := workspaceIdRef h;
       cachedStatusRef := cachedStatusRef h;
       allocated := allocated h + 1 |}.
Proof.
  intros H. unfold onRejected, nextOnRejected. rewrite H.
  by destruct (cachedStatusRef h !! workspaceId r).
Qed.

(** ** The invariant *)

Lemma wellFormedObj_mono h h' o :
  wellFormedObj h o → (allocated h ≤ allocated h')%N → wellFormedObj h' o.
Proof. intros [H1 H2] Hle. split; [lia|done]. Qed.

Lemma wellFormedObj_empty h o : wellFormedObj h o → wellFormedObj h emptyStatus.
Proof. intros [H1 _]. split; [simpl; lia | apply trimmed_nil]. Qed.

Lemma invariant_setEmpty w :
  invariant w → invariant (withHook (setStatus (λ _, emptyStatus) (hook w)) w).
Proof.
  intros [Ha Hwf Ho Hc Hp Hi].
  constructor; simpl; auto.
  eapply wellFormedObj_empty, Hwf.
Qed.

Lemma invariant_withInterval_None w : invariant w → invariant (withInterval None w).
Proof. intros [Ha Hwf Ho Hc Hp Hi]. constructor; simpl; auto. done. Qed.

Lemma invariant_withInterval_Some id w :
  invariant w → id ≠ [] → workspaceIdRef (hook w) = Some id →
  invariant (withInterval (Some id) w).
Proof.
  intros [Ha Hwf Ho Hc Hp Hi] Hne Href. constructor; simpl; auto.
  by intros ? [= <-].
Qed.

Lemma fetchStatus_workspaceIdRef ws w :
  workspaceIdRef (hook (fetchStatus ws w)) = workspaceIdRef (hook w).
Proof. unfold fetchStatus, refresh. by destruct ws as [[|c id]|]. Qed.

Lemma invariant_fetchStatus ws w : invariant w → invariant (fetchStatus ws w).
Proof.
  intros Hinv. unfold fetchStatus, refresh.
  destruct ws as [[|c id]|].
  - assert (pending w ++ option_list None = pending w) as -> by apply app_nil_r.
    by apply invariant_setEmpty.
  - destruct Hinv as [Ha Hwf Ho Hc Hp Hi].
    constructor; simpl; auto.
    intros r [Hr|Hr]%elem_of_app.
    + destruct (Hp r Hr). split; [done|lia].
    + apply list_elem_of_singleton in Hr as ->. simpl. split; [done|lia].
  - assert (pending w ++ option_list None = pending w) as -> by apply app_nil_r.
    by apply invariant_setEmpty.
Qed.

Lemma workspaceEffect_workspaceIdRef ws h :
  workspaceIdRef (workspaceEffect ws h) = ws.
Proof.
  unfold workspaceEffect. case_bool_decide as Href; simpl; [done|].
  by destruct ws as [[|c id]|].
Qed.

(** The state between the two effects. *)
Lemma invariant_workspaceEffect w :
  invariant w →
  invariant {| hook := workspaceEffect (rendered w) (hook w);
               rendered := rendered w;
               effectDeps := Some (rendered w);
               pending := pending w;
               interval := None |}.
Proof.
  intros [Ha Hwf Ho Hc Hp Hi].
  assert (∀ r, r ∈ pending w →
            workspaceId r ≠ [] ∧ (requestId r ≤ requestIdRef (hook w) + 1)%N) as Hp'.
  { intros r Hr. destruct (Hp r Hr). split; [done|lia]. }
  unfold workspaceEffect. case_bool_decide as Href; simpl.
  { constructor; simpl; auto. done. }
  destruct (rendered w) as [[|c id]|].
  - constructor; simpl; auto; try done; by eapply wellFormedObj_empty, Hwf.
  - constructor; simpl; auto; try done.
    + destruct (cachedStatusRef _ !! _) as [o|] eqn:Hlook; simpl.
      * by destruct (Hc _ _ Hlook) as (_ & _ & _ & ?).
      * by eapply wellFormedObj_empty, Hwf.
    + destruct (cachedStatusRef _ !! _) as [o|] eqn:Hlook; simpl.
      * destruct (Hc _ _ Hlook) as (_ & -> & _ & _). by right.
      * by left.
  - constructor; simpl; auto; try done; by eapply wellFormedObj_empty, Hwf.
Qed.

Lemma invariant_runEffects w : invariant w → invariant (runEffects w).
Proof.
  intros Hinv. unfold runEffects. case_bool_decide as Hsame; [done|].
  pose proof (invariant_workspaceEffect w Hinv) as Hmid.
  unfold pollingEffect. destruct (rendered w) as [[|c id]|] eqn:Hws.
  - by apply invariant_withInterval_None, invariant_setEmpty.
  - apply invariant_withInterval_Some; [by apply invariant_fetchStatus|done|].
    rewrite fetchStatus_workspaceIdRef. simpl. apply workspaceEffect_workspaceIdRef.
  - by apply invariant_withInterval_None, invariant_setEmpty.
Qed.

Lemma runEffects_deps w :
  effectDeps (runEffects w) = Some (rendered w)
  ∧ rendered (runEffects w) = rendered w.
Proof.
  unfold runEffects. case_bool_decide as Hsame; [done|].
  unfold pollingEffect, fetchStatus, refresh.
  by destruct (rendered w) as [[|c id]|].
Qed.

Lemma invariant_render ws w : invariant w → invariant (render ws w).
Proof.
  intros Hinv. apply invariant_runEffects in Hinv.
  destruct (runEffects_deps w) as [Hdeps _].
  destruct Hinv as [Ha Hwf Ho Hc Hp Hi].
  unfold render. constructor; simpl; auto.
  rewrite Ha, Hdeps. done.
Qed.

Lemma invariant_settle r o w : invariant w → invariant (step (Settle r o) w).
Proof.
  intros Hinv. simpl. case_bool_decide as Hin; [|done].
  destruct (isStale r (hook w)) eqn:Hstale.
  { rewrite settle_stale by done. simpl.
    destruct Hinv as [Ha Hwf Ho Hc Hp Hi].
    constructor; simpl; auto.
    intros r' [_ Hr']%list_elem_of_filter. auto. }
  pose proof Hstale as [Hid Hws]%isStale_false.
  destruct Hinv as [Ha Hwf Ho Hc Hp Hi].
  destruct (Hp r Hin) as [Hne _].
  assert (∀ r', r' ∈ filter (λ r', r' ≠ r) (pending w) →
            workspaceId r' ≠ [] ∧ (requestId r' ≤ requestIdRef (hook w))%N) as Hp'.
  { intros r' [_ Hr']%list_elem_of_filter. auto. }
  destruct o as [data|err]; unfold settle, promiseThen, promiseCatch, thenHandler, catchHandler.
  - rewrite onFulfilled_fresh by done.
    assert (wellFormedObj
              {| status := keepIfSame (nextOnFulfilled r data (hook w)) (status (hook w));
                 requestIdRef := requestIdRef (hook w);
                 workspaceIdRef := workspaceIdRef (hook w);
                 cachedStatusRef :=
                   <[workspaceId r := nextOnFulfilled r data (hook w)]>
                     (cachedStatusRef (hook w));
                 allocated := allocated (hook w) + 1 |}
              (nextOnFulfilled r data (hook w))) as Hnext.
    { split; simpl; [lia|apply resolveBranchName_trimmed]. }
    constructor; simpl; auto.
    + unfold keepIfSame. destruct (sameStatusState _ _); [|done].
      eapply wellFormedObj_mono; [exact Hwf|simpl; lia].
    + unfold keepIfSame. destruct (sameStatusState _ _); [done|].
      right. simpl. congruence.
    + intros ws o'. rewrite lookup_insert. case_decide as Hk.
      * intros [= <-]. subst ws. done.
      * intros Hlook. destruct (Hc _ _ Hlook) as (? & ? & ? & ?).
        split_and!; [done..|].
        eapply wellFormedObj_mono; [done|simpl; lia].
  - rewrite onRejected_fresh by done.
    assert (Js.trimmed (branchName (val (nextOnRejected r err (hook w))))) as Hb.
    { unfold nextOnRejected. simpl.
      destruct (cachedStatusRef (hook w) !! workspaceId r) as [c|] eqn:Hlook; simpl.
      - destruct (Hc _ _ Hlook) as (_ & _ & _ & _ & ?). done.
      - apply trimmed_unknown. }
    constructor; simpl; auto.
    + unfold keepIfSame. destruct (sameStatusState _ _).
      * eapply wellFormedObj_mono; [exact Hwf|simpl; lia].
      * split; [simpl; lia|done].
    + unfold keepIfSame. destruct (sameStatusState _ _); [done|].
      right. simpl. congruence.
    + intros ws o' Hlook. destruct (Hc _ _ Hlook) as (? & ? & ? & ?).
      split_and!; [done..|].
      eapply wellFormedObj_mono; [done|simpl; lia].
Qed.

Lemma invariant_mount ws : invariant (mount ws).
Proof.
  constructor; simpl; auto.
  - split; [simpl; lia|apply trimmed_nil].
  - intros ? ?. by rewrite lookup_empty.
  - intros r Hr. by apply elem_of_nil in Hr.
  - done.
Qed.

Lemma invariant_step e w : invariant w → invariant (step e w).
Proof.
  intros Hinv. destruct e as [ws| | |ws|r o].
  - by apply invariant_render.
  - by apply invariant_runEffects.
  - simpl. destruct (interval w); [by apply invariant_fetchStatus|done].
  - by apply invariant_fetchStatus.
  - by apply invariant_settle.
Qed.

Lemma reachable_invariant w : reachable w → invariant w.
Proof.
  induction 1 as [ws|e w _ IH]; [apply invariant_mount|by apply invariant_step].
Qed.

Lemma reachable_run events w : reachable w → reachable (run events w).
Proof.
  revert w. induction events as [|e events IH]; intros w Hw; simpl; [done|].
  apply IH. by constructor.
Qed.

(** ** Steps and the parts of the state they leave alone *)

Lemma fetchStatus_cache ws w :
  cachedStatusRef (hook (fetchStatus ws w)) = cachedStatusRef (hook w).
Proof. unfold fetchStatus, refresh. by destruct ws as [[|c id]|]. Qed.

Lemma workspaceEffect_cache ws h :
  cachedStatusRef (workspaceEffect ws h) = cachedStatusRef h.
Proof.
  unfold workspaceEffect. destruct (negb _); [|done].
  by destruct ws as [[|c id]|].
Qed.

Lemma runEffects_cache w :
  cachedStatusRef (hook (runEffects w)) = cachedStatusRef (hook w).
Proof.
  unfold runEffects. case_bool_decide; [done|].
  unfold pollingEffect. destruct (rendered w) as [[|c id]|]; simpl;
    rewrite ?fetchStatus_cache; simpl; by rewrite workspaceEffect_cache.
Qed.

Lemma render_cache ws w :
  cachedStatusRef (hook (render ws w)) = cachedStatusRef (hook w).
Proof. unfold render. simpl. apply runEffects_cache. Qed.

Lemma onRejected_cache r err h :
  cachedStatusRef (onRejected r err h) = cachedStatusRef h.
Proof.
  destruct (isStale r h) eqn:Hs.
  - by rewrite onRejected_stale.
  - by rewrite onRejected_fresh.
Qed.

Lemma step_reject_cache r err w :
  cachedStatusRef (hook (step (Settle r (Rejects err)) w)) = cachedStatusRef (hook w).
Proof.
  simpl. case_bool_decide; [|done]. simpl. apply onRejected_cache.
Qed.

Lemma step_settle_interval r o w : interval (step (Settle r o) w) = interval w.
Proof. simpl. by case_bool_decide. Qed.

Lemma runEffects_pending w r : r ∈ pending w → r ∈ pending (runEffects w).
Proof.
  intros Hr. unfold runEffects. case_bool_decide; [done|].
  unfold pollingEffect, fetchStatus, refresh.
  destruct (rendered w) as [[|c id]|]; simpl; [done| |done].
  apply elem_of_app. by left.
Qed.

(** What the two effects leave on display when the workspace of the
    render is not the one the hook has recorded. *)
Lemma runEffects_status w :
  workspaceIdRef (hook w) = default (rendered w) (effectDeps w) →
  workspaceIdRef (hook w) ≠ rendered w →
  status (hook (runEffects w)) =
    match rendered w with
    | None | Some [] => emptyStatus
    | Some id => default emptyStatus (cachedStatusRef (hook w) !! id)
    end
  ∧ workspaceIdRef (hook (runEffects w)) = rendered w.
Proof.
  intros Href Hne. unfold runEffects.
  rewrite bool_decide_eq_false_2.
  2:{ intros Hdeps. rewrite Hdeps in Href. done. }
  unfold pollingEffect, workspaceEffect, fetchStatus, refresh.
  rewrite bool_decide_eq_false_2 by done.
  by destruct (rendered w) as [[|c id]|].
Qed.

(** Once its effects have run, the hook has recorded the workspace of
    the render. *)
Lemma runEffects_recorded w :
  invariant w → workspaceIdRef (hook (runEffects w)) = rendered w.
Proof.
  intros Hinv. apply invariant_runEffects in Hinv.
  destruct (runEffects_deps w) as [Hdeps _].
  rewrite (inv_active _ Hinv), Hdeps. done.
Qed.

(** ** The scenarios are reachable *)

Lemma reachable_worldMounted : reachable worldMounted.
Proof. apply reachable_run, reachable_mount. Qed.

Lemma reachable_worldCached : reachable worldCached.
Proof. apply reachable_run, reachable_worldMounted. Qed.

Lemma reachable_worldPolling : reachable worldPolling.
Proof. apply reachable_run, reachable_worldCached. Qed.

Lemma reachable_worldSwitched : reachable worldSwitched.
Proof. apply reachable_run, reachable_worldPolling. Qed.

Lemma reachable_worldSuperseded : reachable worldSuperseded.
Proof. apply reachable_run, reachable_worldMounted. Qed.

(** * The claims *)

(** C1. A fetch response, success or failure, is applied only if its
    request number is still the latest one issued and its workspace is still
    the active one: a response that changes the displayed status or the
    cache passes both checks, and a response that fails either check is
    dropped, the displayed status, every cache entry and the rest of the
    hook's state staying as they were. *)
Theorem stale_response_discarded (r : Request) (o : Outcome) (w : World) :
  let w' := step (Settle r o) w in
  (status (hook w') ≠ status (hook w)
   ∨ cachedStatusRef (hook w') ≠ cachedStatusRef (hook w) →
   requestId r = requestIdRef (hook w)
   ∧ Some (workspaceId r) = workspaceIdRef (hook w))
  ∧ (requestId r ≠ requestIdRef (hook w)
     ∨ Some (workspaceId r) ≠ workspaceIdRef (hook w) →
     settle r o (hook w) = (hook w, Fulfilled)
     ∧ hook w' = hook w
     ∧ status (hook w') = status (hook w)
     ∧ ∀ ws, cachedStatusRef (hook w') !! ws = cachedStatusRef (hook w) !! ws).
Proof.
  intros w'.
  assert (isStale r (hook w) = true → hook w' = hook w) as Hdrop.
  { intros Hs. subst w'. simpl. case_bool_decide; [|done].
    simpl. by rewrite settle_stale. }
  split.
  - intros Hchanged.
    destruct (isStale r (hook w)) eqn:Hs.
    + rewrite Hdrop in Hchanged by done. by destruct Hchanged.
    + apply isStale_false in Hs as [-> ->]. done.
  - intros Hfail.
    assert (isStale r (hook w) = true) as Hs.
    { apply isStale_true. destruct Hfail; [left|right]; congruence. }
    rewrite settle_stale, Hdrop by done. done.
Qed.

(** The fetch for A was in flight when the parent switched to B: whether
    it then succeeds or fails, the hook is left as it was. *)
Lemma stale_response_discarded_witness :
  request 2 wsA ∈ pending worldSwitched
  ∧ hook (step (Settle (request 2 wsA) (Resolves rawMain)) worldSwitched)
    = hook worldSwitched
  ∧ hook (step (Settle (request 2 wsA) (Rejects (ErrorObject js:"network down")))
            worldSwitched)
    = hook worldSwitched.
Proof.
  split; [compute_done|]. split.
  - apply (stale_response_discarded (request 2 wsA) (Resolves rawMain) worldSwitched).
    left. compute_done.
  - apply (stale_response_discarded (request 2 wsA)
             (Rejects (ErrorObject js:"network down")) worldSwitched).
    right. compute_done.
Defined.

(** C2, as stated, fails: the replacement is the work of an effect, so
    the render that passes B still returns what was on display. A's
    snapshot is displayed, the parent renders B, which has no cache entry:
    the state is reachable, B is the workspace of the render, and the
    status the hook returns is A's snapshot, not the empty default. *)
Lemma workspace_switch_counterexample :
  let rerendered := step (Render (Some wsB)) worldPolling in
  reachable rerendered
  ∧ rendered rerendered = Some wsB
  ∧ cachedStatusRef (hook rerendered) !! wsB = None
  ∧ origin (status (hook rerendered)) = Some wsA
  ∧ branchName (val (status (hook rerendered))) = js:"main"
  ∧ files (val (status (hook rerendered))) = [fileA]
  ∧ status (hook rerendered) ≠ emptyStatus.
Proof.
  split; [constructor; apply reachable_worldPolling|].
  split_and!; compute_done.
Qed.

(** C2, amended. A render that passes B leaves the displayed status as it
    was. When the workspace of the render, B, is not the one the hook has
    recorded, the effects of that render record B and leave on display B's
    cached snapshot if the cache has one and the module's empty default
    otherwise (the empty default when B is null), with every fetch that
    was in flight still in flight. And however the events interleave, a
    snapshot built by a fetch for some workspace is on display only while
    that workspace is the recorded one, which is the workspace of the last
    render whenever the effects of that render have run: once they have
    run, A's snapshot is never displayed under B or under null. *)
Theorem workspace_switch_display (w : World) (B : option Js.str) :
  reachable w →
  rendered w = B →
  workspaceIdRef (hook w) ≠ B →
  let w' := step Effects w in
  (∀ w0, effectDeps w0 = Some (rendered w0) →
     hook (step (Render B) w0) = hook w0 ∧ rendered (step (Render B) w0) = B)
  ∧ workspaceIdRef (hook w') = B
  ∧ status (hook w') = default emptyStatus (B ≫= λ id, cachedStatusRef (hook w) !! id)
  ∧ (B = None → status (hook w') = emptyStatus)
  ∧ (∀ r, r ∈ pending w → r ∈ pending w')
  ∧ ∀ events A,
      origin (status (hook (run events w))) = Some A →
      workspaceIdRef (hook (run events w)) = Some A
      ∧ (effectDeps (run events w) = Some (rendered (run events w)) →
         rendered (run events w) = Some A
         ∧ (B ≠ Some A → rendered (run events w) ≠ B)).
Proof.
  intros Hreach HB Hne w'.
  pose proof (reachable_invariant _ Hreach) as Hinv.
  rewrite <- HB in Hne.
  destruct (runEffects_status w (inv_active _ Hinv) Hne) as [Hst Href].
  assert (status (hook w') =
            default emptyStatus (B ≫= λ id, cachedStatusRef (hook w) !! id)) as Hshown.
  { subst w'. simpl. rewrite Hst, HB.
    destruct B as [[|c id]|]; simpl; [|done..].
    destruct (cachedStatusRef _ !! _) as [o|] eqn:Hlook; [|done].
    by destruct (inv_cache _ Hinv _ _ Hlook) as [? _]. }
  split_and!.
  - intros w0 Hdeps. simpl. unfold render, runEffects.
    by rewrite bool_decide_eq_true_2.
  - by rewrite <- HB.
  - exact Hshown.
  - intros ->. by rewrite Hshown.
  - intros r. apply runEffects_pending.
  - intros events A Horigin.
    assert (reachable (run events w)) as Hreach' by by apply reachable_run.
    pose proof (reachable_invariant _ Hreach') as Hinv'.
    assert (workspaceIdRef (hook (run events w)) = Some A) as Href'.
    { destruct (inv_status_origin _ Hinv') as [Hnone|Hsome]; congruence. }
    split; [done|]. intros Hdeps.
    assert (rendered (run events w) = Some A) as Hrendered.
    { rewrite <- Href', (inv_active _ Hinv'), Hdeps. done. }
    split; [done|]. intros HBA. by rewrite Hrendered.
Qed.

(** A's snapshot is on display and the parent renders B, which has no
    cache entry: the render leaves A's snapshot there, the effects put the
    empty default on display. Then the parent renders A again: the effects
    put A's cached snapshot there. No fetch settles in between. *)
Lemma workspace_switch_display_witness :
  origin (status (hook worldPolling)) = Some wsA
  ∧ hook (step (Render (Some wsB)) worldPolling) = hook worldPolling
  ∧ status (hook (run [Render (Some wsB); Effects] worldPolling)) = emptyStatus
  ∧ Some (status (hook (run [Render (Some wsA); Effects] worldSwitched)))
    = cachedStatusRef (hook worldSwitched) !! wsA.
Proof.
  split; [compute_done|].
  pose proof (workspace_switch_display
                (run [Render (Some wsB)] worldPolling) (Some wsB)) as H.
  destruct H as (Hrender & _ & Hshown & _).
  { apply reachable_run, reachable_worldPolling. }
  { compute_done. }
  { compute_done. }
  split; [|split].
  - apply (Hrender worldPolling). compute_done.
  - etrans; [exact Hshown|]. compute_done.
  - pose proof (workspace_switch_display
                  (run [Render (Some wsA)] worldSwitched) (Some wsA)) as H.
    destruct H as (_ & _ & Hshown' & _).
    + apply reachable_run, reachable_worldSwitched.
    + compute_done.
    + compute_done.
    + etrans; [exact (f_equal Some Hshown')|]. compute_done.
Defined.

Lemma unknownIncoming_not_known incoming :
  unknownIncoming incoming → ¬ knownBranch (default [] (Js.trim <$> incoming)).
Proof.
  destruct incoming as [i|]; simpl.
  - intros [H|H] [Hne Hunk]; rewrite H in *; done.
  - intros _ [Hne _]. done.
Qed.

(** C3, as stated, fails: with nothing cached, an incoming name that is
    the sentinel once trimmed is not used unchanged, the trimmed name is. *)
Lemma sticky_branch_name_counterexample :
  let incoming := js:" unknown" in
  let settled :=
    step (Settle (request 1 wsA) (Resolves (rawWith (Some incoming)))) worldMounted in
  Js.trim incoming = js:"unknown"
  ∧ cachedStatusRef (hook worldMounted) !! wsA = None
  ∧ request 1 wsA ∈ pending worldMounted
  ∧ isStale (request 1 wsA) (hook worldMounted) = false
  ∧ resolveBranchName (Some incoming) None ≠ incoming
  ∧ branchName (val (status (hook settled))) ≠ incoming
  ∧ branchName (val (status (hook settled))) = js:"unknown".
Proof. split_and!; compute_done. Qed.

(** C3, amended. For a successful fetch whose incoming branch name is
    absent, or empty or "unknown" once trimmed: if the cache entry of the
    same workspace holds a known branch name, the resolved name is the
    cached one; otherwise it is the trimmed incoming name (the empty string
    when the name is absent). When the response is not stale, the resolved
    name is the one displayed and the one stored. *)
Theorem sticky_branch_name (w : World) (r : Request) (data : RawStatus) :
  reachable w →
  unknownIncoming (raw_branchName data) →
  let cached := cachedStatusRef (hook w) !! workspaceId r in
  let resolved := resolveBranchName (raw_branchName data) (val <$> cached) in
  (∀ c, cached = Some c → knownBranch (branchName (val c)) →
        resolved = branchName (val c))
  ∧ ((∀ c, cached = Some c → ¬ knownBranch (branchName (val c))) →
     resolved = default [] (Js.trim <$> raw_branchName data))
  ∧ (isStale r (hook w) = false →
     branchName (val (status (onFulfilled r data (hook w)))) = resolved
     ∧ ∃ o, cachedStatusRef (onFulfilled r data (hook w)) !! workspaceId r = Some o
            ∧ branchName (val o) = resolved).
Proof.
  intros Hreach Hin cached resolved.
  pose proof (reachable_invariant _ Hreach) as Hinv.
  apply unknownIncoming_not_known in Hin.
  assert (∀ c, cached = Some c → Js.trim (branchName (val c)) = branchName (val c))
    as Htrim.
  { intros c Hc. apply trim_id.
    by destruct (inv_cache _ Hinv _ _ Hc) as (_ & _ & _ & _ & ?). }
  split_and!.
  - intros c Hc Hknown. subst resolved. rewrite Hc. simpl.
    rewrite <- (Htrim c Hc) in Hknown.
    rewrite resolveBranchName_sticky by done. by apply Htrim.
  - intros Hnone. subst resolved.
    apply resolveBranchName_passthrough; [done|].
    intros c' Hc'. destruct cached as [c|] eqn:Hc; [|done].
    simpl in Hc'. injection Hc' as <-.
    rewrite (Htrim c eq_refl). by apply Hnone.
  - intros Hfresh. rewrite onFulfilled_fresh by done. simpl.
    split; [by rewrite keepIfSame_val|].
    eexists. by rewrite lookup_insert_eq.
Qed.

(** Branch "main" is cached for A; the next fetch reports "unknown" with a
    space around it and "main" stays on display. *)
Lemma sticky_branch_name_witness :
  branchName
    (val (status (onFulfilled (request 2 wsA) (rawWith (Some js:" unknown "))
                    (hook worldPolling))))
  = js:"main".
Proof.
  pose proof (sticky_branch_name worldPolling (request 2 wsA)
                (rawWith (Some js:" unknown "))) as H.
  destruct H as (Hsticky & _ & Hshown).
  - apply reachable_worldPolling.
  - right. compute_done.
  - destruct Hshown as [-> _]; [compute_done|].
    rewrite (Hsticky (mkObj 1 (Some wsA) (of_raw rawMain js:"main"))).
    + reflexivity.
    + compute_done.
    + split; compute_done.
Defined.

(** C4, as stated, fails on the failure path: the first fetch for A
    fails, it is not stale, and no cache entry for A exists afterwards. *)
Lemma cache_write_counterexample :
  let failed :=
    step (Settle (request 1 wsA) (Rejects (ErrorObject js:"timeout"))) worldMounted in
  request 1 wsA ∈ pending worldMounted
  ∧ isStale (request 1 wsA) (hook worldMounted) = false
  ∧ error (val (status (hook failed))) = Some js:"timeout"
  ∧ cachedStatusRef (hook failed) !! wsA = None.
Proof. split_and!; compute_done. Qed.

(** C4, amended. A response that is not stale writes the cache on the
    success path only: a success stores the snapshot it built under its
    workspace id, creating the entry or replacing the one there, and leaves
    the other entries alone; a failure leaves the whole cache as it was. *)
Theorem cache_write_on_success_only (r : Request) (h : Hook) :
  isStale r h = false →
  (∀ data,
     cachedStatusRef (settle r (Resolves data) h).1 !! workspaceId r
     = Some (nextOnFulfilled r data h)
     ∧ ∀ ws, ws ≠ workspaceId r →
         cachedStatusRef (settle r (Resolves data) h).1 !! ws
         = cachedStatusRef h !! ws)
  ∧ (∀ err, cachedStatusRef (settle r (Rejects err) h).1 = cachedStatusRef h).
Proof.
  intros Hfresh. split.
  - intros data. unfold settle, promiseThen, promiseCatch, thenHandler, catchHandler. simpl.
    rewrite onFulfilled_fresh by done. simpl. split.
    + by rewrite lookup_insert_eq.
    + intros ws Hne. by rewrite lookup_insert_ne.
  - intros err. unfold settle, promiseThen, promiseCatch, thenHandler, catchHandler. simpl.
    apply onRejected_cache.
Qed.

(** The first success for A creates A's entry; a later failure for A
    leaves that entry in place. *)
Lemma cache_write_on_success_only_witness :
  cachedStatusRef (hook worldMounted) !! wsA = None
  ∧ cachedStatusRef (settle (request 1 wsA) (Resolves rawMain) (hook worldMounted)).1
      !! wsA
    = Some (nextOnFulfilled (request 1 wsA) rawMain (hook worldMounted))
  ∧ cachedStatusRef
      (settle (request 2 wsA) (Rejects (ErrorObject js:"network down"))
         (hook worldPolling)).1
    = cachedStatusRef (hook worldPolling).
Proof.
  split; [compute_done|]. split.
  - apply (cache_write_on_success_only (request 1 wsA) (hook worldMounted)).
    compute_done.
  - apply (cache_write_on_success_only (request 2 wsA) (hook worldPolling)).
    compute_done.
Defined.

(** C5. A failure that is not stale, for a workspace with a cache entry,
    leaves on display that entry with its [error] set to the failure
    message, which is the [message] of the [Error] the source rejected
    with, or the string form of any other value it rejected with: the
    branch name, the three file lists and the two totals are those of the
    cached entry. *)
Theorem failure_keeps_cached_data (r : Request) (err : Rejection) (h : Hook)
    (cached : StatusObj) :
  isStale r h = false →
  cachedStatusRef h !! workspaceId r = Some cached →
  let shown := val (status (settle r (Rejects err) h).1) in
  (∀ message, err = ErrorObject message → error shown = Some message)
  ∧ (∀ asString, err = OtherValue asString → error shown = Some asString)
  ∧ branchName shown = branchName (val cached)
  ∧ files shown = files (val cached)
  ∧ stagedFiles shown = stagedFiles (val cached)
  ∧ unstagedFiles shown = unstagedFiles (val cached)
  ∧ totalAdditions shown = totalAdditions (val cached)
  ∧ totalDeletions shown = totalDeletions (val cached).
Proof.
  intros Hfresh Hcached shown. subst shown.
  unfold settle, promiseThen, promiseCatch, thenHandler, catchHandler. simpl.
  rewrite onRejected_fresh by done. simpl.
  rewrite keepIfSame_val. unfold nextOnRejected. simpl.
  rewrite Hcached. simpl.
  split_and!; try done; by intros ? ->.
Qed.

(** The cache holds one modified file, 3 additions and 1 deletion; the
    next fetch rejects with the [Error] "network down", or with the string
    "timeout". *)
Lemma failure_keeps_cached_data_witness :
  let shown :=
    val (status (settle (request 2 wsA) (Rejects (ErrorObject js:"network down"))
                   (hook worldPolling)).1) in
  let shown' :=
    val (status (settle (request 2 wsA) (Rejects (OtherValue js:"timeout"))
                   (hook worldPolling)).1) in
  error shown = Some js:"network down"
  ∧ error shown' = Some js:"timeout"
  ∧ branchName shown = js:"main"
  ∧ files shown = [fileA]
  ∧ stagedFiles shown = []
  ∧ unstagedFiles shown = [fileA]
  ∧ totalAdditions shown = 3%Z
  ∧ totalDeletions shown = 1%Z.
Proof.
  destruct (failure_keeps_cached_data (request 2 wsA)
              (ErrorObject js:"network down") (hook worldPolling)
              (mkObj 1 (Some wsA) (of_raw rawMain js:"main")))
    as (Hmessage & _ & Hbranch & Hfiles & Hstaged & Hunstaged & Hadd & Hdel);
    [compute_done..|].
  destruct (failure_keeps_cached_data (request 2 wsA)
              (OtherValue js:"timeout") (hook worldPolling)
              (mkObj 1 (Some wsA) (of_raw rawMain js:"main")))
    as (_ & Hstring & _); [compute_done..|].
  split_and!.
  - by apply Hmessage.
  - by apply Hstring.
  - exact Hbranch.
  - exact Hfiles.
  - exact Hstaged.
  - exact Hunstaged.
  - exact Hadd.
  - exact Hdel.
Defined.

(** C6. A failure that is not stale, for a workspace with no cache entry,
    leaves on display the empty default (no files, zero totals) with the
    branch name "unknown" and [error] set to the failure message: the
    [message] of the [Error] the source rejected with, or the string form
    of any other value it rejected with. *)
Theorem failure_without_cache (r : Request) (err : Rejection) (h : Hook) :
  isStale r h = false →
  cachedStatusRef h !! workspaceId r = None →
  val (status (settle r (Rejects err) h).1)
  = {| branchName := js:"unknown";
       files := [];
       stagedFiles := [];
       unstagedFiles := [];
       totalAdditions := 0;
       totalDeletions := 0;
       error := Some match err with
                     | ErrorObject message => message
                     | OtherValue asString => asString
                     end |}.
Proof.
  intros Hfresh Hnone.
  unfold settle, promiseThen, promiseCatch, thenHandler, catchHandler. simpl.
  rewrite onRejected_fresh by done. simpl.
  rewrite keepIfSame_val. unfold nextOnRejected. simpl.
  rewrite Hnone. by destruct err.
Qed.

(** Nothing is cached for A and its first fetch rejects with the string
    "timeout", or with the [Error] "network down". *)
Lemma failure_without_cache_witness :
  val (status (settle (request 1 wsA) (Rejects (OtherValue js:"timeout"))
                 (hook worldMounted)).1)
  = {| branchName := js:"unknown";
       files := [];
       stagedFiles := [];
       unstagedFiles := [];
       totalAdditions := 0;
       totalDeletions := 0;
       error := Some js:"timeout" |}
  ∧ error (val (status (settle (request 1 wsA) (Rejects (ErrorObject js:"network down"))
                          (hook worldMounted)).1))
    = Some js:"network down".
Proof.
  split.
  - apply (failure_without_cache (request 1 wsA) (OtherValue js:"timeout")
             (hook worldMounted)); compute_done.
  - rewrite (failure_without_cache (request 1 wsA) (ErrorObject js:"network down")
               (hook worldMounted)) by compute_done.
    reflexivity.
Defined.

(** C7. The equality that governs render suppression answers [true]
    exactly when the branch name, the error and the two totals are equal
    and the three file lists are equal as ordered sequences (same length,
    the same path, status, additions and deletions at each index); it
    reads no identity, so two distinct objects with equal fields compare
    equal; and when the snapshot built from a response that is not stale is
    equal to the displayed one, the displayed object stays the one it was
    (the new object takes its place otherwise). *)
Theorem sameStatusState_governs_rendering :
  (∀ a b, sameStatusState a b = true ↔ snapshotEqualSpec a b)
  ∧ (∀ o1 o2 : StatusObj,
       oid o1 ≠ oid o2 → snapshotEqualSpec (val o1) (val o2) →
       sameStatusState (val o1) (val o2) = true)
  ∧ (∀ r o h,
       isStale r h = false →
       (sameStatusState (val (status h)) (val (nextStatusOf r o h)) = true →
        status (settle r o h).1 = status h)
       ∧ (sameStatusState (val (status h)) (val (nextStatusOf r o h)) = false →
          status (settle r o h).1 = nextStatusOf r o h)).
Proof.
  split_and!.
  - apply sameStatusState_spec.
  - intros o1 o2 _ H. by apply sameStatusState_spec.
  - intros r o h Hfresh.
    assert (status (settle r o h).1 = keepIfSame (nextStatusOf r o h) (status h)) as ->.
    { destruct o as [data|err]; unfold settle, promiseThen, promiseCatch, thenHandler, catchHandler; simpl.
      - by rewrite onFulfilled_fresh.
      - by rewrite onRejected_fresh. }
    unfold keepIfSame. split; intros ->; done.
Qed.

(** The second of two equal successful fetches for A builds a new object
    and leaves the first one on display. *)
Lemma sameStatusState_governs_rendering_witness :
  oid (nextStatusOf (request 2 wsA) (Resolves rawMain) (hook worldPolling)) = 2%N
  ∧ oid (status (hook worldPolling)) = 1%N
  ∧ status (settle (request 2 wsA) (Resolves rawMain) (hook worldPolling)).1
    = status (hook worldPolling).
Proof.
  split; [compute_done|]. split; [compute_done|].
  destruct sameStatusState_governs_rendering as (_ & _ & H).
  apply (H (request 2 wsA) (Resolves rawMain) (hook worldPolling)); compute_done.
Defined.

(** C8, as stated, fails for a stale failure: request 1 was superseded by
    request 2 before it failed, and the displayed status carries no error
    afterwards. *)
Lemma failure_containment_counterexample :
  let failed :=
    step (Settle (request 1 wsA) (Rejects (ErrorObject js:"timeout")))
      worldSuperseded in
  request 1 wsA ∈ pending worldSuperseded
  ∧ (request 1 wsA ∉ pending failed)
  ∧ error (val (status (hook failed))) = None
  ∧ status (hook failed) = status (hook worldSuperseded).
Proof. split_and!; compute_done. Qed.

(** C8, amended. Whatever the outcome of a fetch, no failure leaves the
    hook as a thrown exception or a rejected promise: the chain ends in
    [.catch], whose handler returns for every rejection, so the promise
    [refresh] returned is fulfilled, never rejected, even if the [.then]
    handler were to throw. The interval runs on as before: the next tick,
    or an explicit refresh, issues the next request. A failure that is not
    stale leaves its message (the [message] of an [Error], the string form
    of any other value) in the [error] of the displayed status; a stale
    outcome leaves the hook as it was. *)
Theorem failure_is_contained (w : World) (r : Request) (o : Outcome) :
  reachable w →
  let w' := step (Settle r o) w in
  (settle r o (hook w)).2 = Fulfilled
  ∧ (∀ f, (promiseCatch (catchHandler r) (promiseThen f o (hook w))).2 = Fulfilled)
  ∧ interval w' = interval w
  ∧ (∀ id, interval w' = Some id →
       pending (step Tick w')
       = pending w' ++ [request (requestIdRef (hook w') + 1) id])
  ∧ (∀ id, id ≠ [] →
       pending (step (CallRefresh (Some id)) w')
       = pending w' ++ [request (requestIdRef (hook w') + 1) id])
  ∧ (∀ err, o = Rejects err → r ∈ pending w → isStale r (hook w) = false →
       (∀ message, err = ErrorObject message →
          error (val (status (hook w'))) = Some message)
       ∧ (∀ asString, err = OtherValue asString →
            error (val (status (hook w'))) = Some asString))
  ∧ (isStale r (hook w) = true → hook w' = hook w).
Proof.
  intros Hreach w'.
  assert (reachable w') as Hreach' by by constructor.
  pose proof (reachable_invariant _ Hreach') as Hinv'.
  assert (∀ id, id ≠ [] →
            pending (fetchStatus (Some id) w')
            = pending w' ++ [request (requestIdRef (hook w') + 1) id]) as Hfetch.
  { intros [|c id] Hne; [done|]. reflexivity. }
  assert (∀ p g, (∀ err h, (g err h).2 = Returns) → (promiseCatch g p).2 = Fulfilled)
    as Hcaught.
  { intros [h [|err]] g Hg; simpl; [done|].
    specialize (Hg err h). destruct (g err h) as [h' c]. simpl in *. by subst c. }
  split_and!.
  - by apply Hcaught.
  - intros f. by apply Hcaught.
  - apply step_settle_interval.
  - intros id Hint. simpl step at 1. rewrite Hint.
    apply Hfetch. by destruct (inv_interval _ Hinv' _ Hint).
  - intros id Hne. by apply Hfetch.
  - intros err -> Hin Hfresh.
    assert (error (val (status (hook w'))) = Some (messageOf err)) as Hshown.
    { subst w'. simpl.
      rewrite bool_decide_eq_true_2 by done. simpl.
      unfold settle, promiseThen, promiseCatch, thenHandler, catchHandler. simpl.
      rewrite onRejected_fresh by done. simpl.
      rewrite keepIfSame_val. unfold nextOnRejected. simpl.
      by destruct (cachedStatusRef (hook w) !! workspaceId r). }
    split; intros ? ->; exact Hshown.
  - intros Hstale. subst w'. simpl. case_bool_decide; [|done].
    simpl. by rewrite settle_stale.
Qed.

(** Request 2 for A fails, once with the [Error] "network down" and once
    with the string "timeout": the message is displayed, the interval
    still runs, and its next tick issues request 3. *)
Lemma failure_is_contained_witness :
  let failed :=
    step (Settle (request 2 wsA) (Rejects (ErrorObject js:"network down")))
      worldPolling in
  let failed' :=
    step (Settle (request 2 wsA) (Rejects (OtherValue js:"timeout"))) worldPolling in
  error (val (status (hook failed))) = Some js:"network down"
  ∧ error (val (status (hook failed'))) = Some js:"timeout"
  ∧ interval failed = Some wsA
  ∧ pending (step Tick failed) = [request 3 wsA].
Proof.
  pose proof (failure_is_contained worldPolling (request 2 wsA)
                (Rejects (ErrorObject js:"network down"))
                reachable_worldPolling) as H.
  pose proof (failure_is_contained worldPolling (request 2 wsA)
                (Rejects (OtherValue js:"timeout"))
                reachable_worldPolling) as H'.
  destruct H as (_ & _ & Hint & Htick & _ & Herr & _).
  destruct H' as (_ & _ & _ & _ & _ & Herr' & _).
  split_and!.
  - destruct (Herr (ErrorObject js:"network down")) as [Hmessage _];
      [compute_done..|]. by apply Hmessage.
  - destruct (Herr' (OtherValue js:"timeout")) as [_ Hstring];
      [compute_done..|]. by apply Hstring.
  - rewrite Hint. compute_done.
  - rewrite (Htick wsA); compute_done.
Defined.

(** C9. Every snapshot in the cache has [error = null]: the failure
    handler does not write the cache, the success handler stores a
    snapshot whose error is null. So after a failure for the active
    workspace, switching away and back redisplays the cached snapshot,
    without the error. *)
Theorem cache_holds_no_error (w : World) :
  reachable w →
  (∀ ws o, cachedStatusRef (hook w) !! ws = Some o → error (val o) = None)
  ∧ (∀ r err, cachedStatusRef (onRejected r err (hook w)) = cachedStatusRef (hook w))
  ∧ (∀ r data, isStale r (hook w) = false →
       ∃ o, cachedStatusRef (onFulfilled r data (hook w)) !! workspaceId r = Some o
            ∧ error (val o) = None)
  ∧ (∀ r err B id c,
       cachedStatusRef (hook w) !! id = Some c →
       B ≠ Some id →
       let back :=
         run [Settle r (Rejects err); Render B; Effects; Render (Some id); Effects] w in
       status (hook back) = c ∧ error (val (status (hook back))) = None).
Proof.
  intros Hreach.
  pose proof (reachable_invariant _ Hreach) as Hinv.
  assert (∀ ws o, cachedStatusRef (hook w) !! ws = Some o → error (val o) = None)
    as Hnull.
  { intros ws o Hlook. by destruct (inv_cache _ Hinv _ _ Hlook) as (_ & _ & ? & _). }
  split_and!.
  - exact Hnull.
  - intros r err. apply onRejected_cache.
  - intros r data Hfresh. rewrite onFulfilled_fresh by done. simpl.
    eexists. by rewrite lookup_insert_eq.
  - intros r err B id c Hlook HB back.
    set (w1 := run [Settle r (Rejects err); Render B] w).
    set (w2 := runEffects w1).
    set (w3 := render (Some id) w2).
    assert (reachable w1) as Hreach1 by by apply reachable_run.
    pose proof (reachable_invariant _ Hreach1) as Hinv1.
    pose proof (invariant_runEffects _ Hinv1) as Hinv2.
    pose proof (invariant_render (Some id) _ Hinv2) as Hinv3.
    assert (rendered w1 = B) as Hrendered1 by reflexivity.
    assert (workspaceIdRef (hook w3) = B) as Href3.
    { change (workspaceIdRef (hook (runEffects w2)) = B).
      rewrite (runEffects_recorded w2 Hinv2). unfold w2.
      by destruct (runEffects_deps w1) as [_ ->]. }
    assert (cachedStatusRef (hook w3) = cachedStatusRef (hook w)) as Hcache3.
    { unfold w3, w2. rewrite render_cache, runEffects_cache.
      change w1 with (render B (step (Settle r (Rejects err)) w)).
      rewrite render_cache. apply step_reject_cache. }
    assert (status (hook back) = c) as Hback.
    { change (status (hook (runEffects w3)) = c).
      destruct (runEffects_status w3) as [-> _].
      - apply (inv_active _ Hinv3).
      - by rewrite Href3.
      - change (rendered w3) with (Some id). rewrite Hcache3.
        destruct id as [|ch id]; [|by rewrite Hlook].
        by destruct (inv_cache _ Hinv _ _ Hlook) as [? _]. }
    split; [done|]. rewrite Hback. by eapply Hnull.
Qed.

(** A's snapshot is cached and displayed; its next fetch fails, the parent
    switches to B and back to A: the cached snapshot is on display, and it
    carries no error. *)
Lemma cache_holds_no_error_witness :
  let failed :=
    run [Settle (request 2 wsA) (Rejects (OtherValue js:"network down"))]
      worldPolling in
  let back :=
    run [Settle (request 2 wsA) (Rejects (OtherValue js:"network down"));
         Render (Some wsB); Effects; Render (Some wsA); Effects] worldPolling in
  error (val (status (hook failed))) = Some js:"network down"
  ∧ Some (status (hook back)) = cachedStatusRef (hook worldPolling) !! wsA
  ∧ error (val (status (hook back))) = None.
Proof.
  destruct (cache_holds_no_error worldPolling reachable_worldPolling)
    as (_ & _ & _ & H).
  destruct (H (request 2 wsA) (OtherValue js:"network down") (Some wsB) wsA
              (mkObj 1 (Some wsA) (of_raw rawMain js:"main")))
    as [Hback Herr]; [compute_done..|].
  split; [compute_done|]. split.
  - etrans; [exact (f_equal Some Hback)|]. compute_done.
  - exact Herr.
Defined.

(** C10. [resolveBranchName] returns the trimmed incoming name, the
    trimmed cached name or the empty string, each of them without white
    space at either end; so the branch name on display after a successful
    fetch settles, and the one stored in the cache, have none, whatever the
    source sent. *)
Theorem branch_name_is_trimmed (w : World) (r : Request) (data : RawStatus) :
  reachable w →
  let resolved :=
    resolveBranchName (raw_branchName data)
      (val <$> cachedStatusRef (hook w) !! workspaceId r) in
  let w' := step (Settle r (Resolves data)) w in
  ((∃ i, raw_branchName data = Some i ∧ resolved = Js.trim i)
   ∨ (∃ c, cachedStatusRef (hook w) !! workspaceId r = Some c
           ∧ resolved = Js.trim (branchName (val c)))
   ∨ resolved = [])
  ∧ Js.trimmed resolved
  ∧ Js.trim resolved = resolved
  ∧ Js.trimmed (branchName (val (status (hook w'))))
  ∧ (∀ ws o, cachedStatusRef (hook w') !! ws = Some o →
       Js.trimmed (branchName (val o)))
  ∧ (r ∈ pending w → isStale r (hook w) = false →
     branchName (val (status (hook w'))) = resolved
     ∧ ∃ o, cachedStatusRef (hook w') !! workspaceId r = Some o
            ∧ branchName (val o) = resolved).
Proof.
  intros Hreach resolved w'.
  assert (reachable w') as Hreach' by by constructor.
  pose proof (reachable_invariant _ Hreach') as Hinv'.
  split_and!.
  - subst resolved.
    destruct (resolveBranchName_cases (raw_branchName data)
                (val <$> cachedStatusRef (hook w) !! workspaceId r))
      as [(i & Hi & ->)|[(c & Hc & ->)| ->]].
    + left. by exists i.
    + right; left.
      destruct (cachedStatusRef (hook w) !! workspaceId r) as [o|]; [|done].
      simpl in Hc. injection Hc as <-. by exists o.
    + by right; right.
  - apply resolveBranchName_trimmed.
  - apply trim_id, resolveBranchName_trimmed.
  - apply (inv_status_wf _ Hinv').
  - intros ws o Hlook.
    by destruct (inv_cache _ Hinv' _ _ Hlook) as (_ & _ & _ & _ & ?).
  - intros Hin Hfresh. subst w'. simpl.
    rewrite bool_decide_eq_true_2 by done. simpl.
    unfold settle, promiseThen, promiseCatch, thenHandler, catchHandler. simpl.
    rewrite onFulfilled_fresh by done. simpl.
    split; [by rewrite keepIfSame_val|].
    eexists. by rewrite lookup_insert_eq.
Qed.

(** The source sends " feature/x " for A's first fetch: "feature/x" is
    displayed. *)
Lemma branch_name_is_trimmed_witness :
  branchName
    (val (status (hook (step (Settle (request 1 wsA)
                                (Resolves (rawWith (Some js:" feature/x "))))
                          worldMounted))))
  = js:"feature/x".
Proof.
  destruct (branch_name_is_trimmed worldMounted (request 1 wsA)
              (rawWith (Some js:" feature/x ")) reachable_worldMounted)
    as (_ & _ & _ & _ & _ & H).
  destruct H as [-> _]; compute_done.
Defined.

(** * Further properties of the hook *)

(** The request counter never goes down, and the recorded workspace
    changes only together with it. *)
Lemma step_counter e w :
  (requestIdRef (hook w) ≤ requestIdRef (hook (step e w)))%N
  ∧ (requestIdRef (hook (step e w)) = requestIdRef (hook w) →
     workspaceIdRef (hook (step e w)) = workspaceIdRef (hook w)).
Proof.
  assert (∀ ws w,
            (requestIdRef (hook w) ≤ requestIdRef (hook (fetchStatus ws w)))%N
            ∧ workspaceIdRef (hook (fetchStatus ws w)) = workspaceIdRef (hook w))
    as Hfetch.
  { intros ws w0. unfold fetchStatus, refresh.
    destruct ws as [[|c id]|]; simpl; split; (done || lia). }
  assert (∀ w,
            (requestIdRef (hook w) ≤ requestIdRef (hook (runEffects w)))%N
            ∧ (requestIdRef (hook (runEffects w)) = requestIdRef (hook w) →
               workspaceIdRef (hook (runEffects w)) = workspaceIdRef (hook w)))
    as Heffects.
  { intros w0. unfold runEffects. case_bool_decide as Hdeps; [done|].
    unfold pollingEffect, workspaceEffect, fetchStatus, refresh.
    case_bool_decide as Href; destruct (rendered w0) as [[|c id]|]; simpl;
      split; intros; (done || lia). }
  destruct e as [ws| | |ws|r o]; simpl.
  - apply Heffects.
  - apply Heffects.
  - destruct (interval w) as [id|]; [|done].
    destruct (Hfetch (Some id) w) as [? ?]. split; done.
  - destruct (Hfetch ws w) as [? ?]. split; done.
  - case_bool_decide; [|done]. simpl.
    destruct (isStale r (hook w)) eqn:Hs.
    + by rewrite settle_stale.
    + destruct o; unfold settle, promiseThen, promiseCatch, thenHandler, catchHandler; simpl.
      * by rewrite onFulfilled_fresh.
      * by rewrite onRejected_fresh.
Qed.

Lemma stale_step r e w :
  (requestId r ≤ requestIdRef (hook w))%N →
  isStale r (hook w) = true →
  (requestId r ≤ requestIdRef (hook (step e w)))%N
  ∧ isStale r (hook (step e w)) = true.
Proof.
  intros Hle Hstale. destruct (step_counter e w) as [Hmono Hsame].
  split; [lia|].
  destruct (decide (requestIdRef (hook (step e w)) = requestIdRef (hook w)))
    as [Heq|Hne].
  - apply isStale_true in Hstale. apply isStale_true.
    rewrite Heq, (Hsame Heq). done.
  - apply isStale_true. left. lia.
Qed.

(** A response that has become stale stays stale: whatever happens next,
    a request in flight that no longer passes the check never passes it
    again, so a superseded fetch is never applied late. *)
Theorem stale_stays_stale (w : World) (r : Request) (events : list Event) :
  reachable w →
  r ∈ pending w →
  isStale r (hook w) = true →
  isStale r (hook (run events w)) = true.
Proof.
  intros Hreach Hin Hstale.
  destruct (inv_pending _ (reachable_invariant _ Hreach) r Hin) as [_ Hle].
  clear Hreach Hin. revert w Hle Hstale.
  induction events as [|e events IH]; intros w Hle Hstale; simpl; [done|].
  destruct (stale_step r e w Hle Hstale) as [Hle' Hstale'].
  by apply IH.
Qed.

(** Request 1 for A was superseded by request 2; A stays active, the
    interval fires again and request 2 settles: request 1 is still stale. *)
Lemma stale_stays_stale_witness :
  isStale (request 1 wsA)
    (hook (run [Tick; Settle (request 2 wsA) (Resolves rawMain)] worldSuperseded))
  = true.
Proof.
  apply (stale_stays_stale worldSuperseded (request 1 wsA)).
  - apply reachable_worldSuperseded.
  - compute_done.
  - compute_done.
Defined.

(** When the effects record a workspace other than the one recorded
    before, every fetch in flight becomes stale. *)
Theorem switch_invalidates_in_flight (w : World) (r : Request) :
  reachable w →
  workspaceIdRef (hook w) ≠ rendered w →
  r ∈ pending w →
  isStale r (hook (step Effects w)) = true.
Proof.
  intros Hreach Hne Hin.
  pose proof (reachable_invariant _ Hreach) as Hinv.
  destruct (inv_pending _ Hinv r Hin) as [_ Hle].
  apply isStale_true. left.
  assert (requestIdRef (hook w) < requestIdRef (hook (step Effects w)))%N; [|lia].
  simpl. unfold runEffects. rewrite bool_decide_eq_false_2.
  2:{ intros Hdeps. rewrite (inv_active _ Hinv), Hdeps in Hne. done. }
  unfold pollingEffect, workspaceEffect, fetchStatus, refresh.
  rewrite bool_decide_eq_false_2 by done.
  destruct (rendered w) as [[|c id]|]; simpl; lia.
Qed.

(** Request 2 for A is in flight and passes the check; the parent renders
    B, the effects run, request 2 is stale. *)
Lemma switch_invalidates_in_flight_witness :
  isStale (request 2 wsA) (hook worldPolling) = false
  ∧ isStale (request 2 wsA) (hook worldSwitched) = true.
Proof.
  split; [compute_done|].
  apply (switch_invalidates_in_flight (run [Render (Some wsB)] worldPolling)
           (request 2 wsA)).
  - apply reachable_run, reachable_worldPolling.
  - compute_done.
  - compute_done.
Defined.

(** Resolving again against the snapshot just stored gives the same name. *)
Lemma resolveBranchName_again incoming cached data :
  let resolved := resolveBranchName incoming cached in
  resolveBranchName incoming (Some (of_raw data resolved)) = resolved.
Proof.
  intros resolved.
  assert (Js.trim resolved = resolved) as Htrim
    by apply trim_id, resolveBranchName_trimmed.
  destruct (decide (knownBranch (default [] (Js.trim <$> incoming)))) as [Hin|Hin].
  - destruct incoming as [i|]; simpl in Hin; [|by destruct Hin].
    subst resolved. by rewrite !resolveBranchName_incoming_known.
  - destruct (decide (knownBranch resolved)) as [Hres|Hres].
    + rewrite resolveBranchName_sticky; simpl; rewrite ?Htrim; done.
    + rewrite resolveBranchName_passthrough; [|done|].
      * symmetry. subst resolved.
        destruct cached as [c|].
        -- destruct (decide (knownBranch (Js.trim (branchName c)))) as [Hc|Hc].
           ++ exfalso. apply Hres.
              by rewrite resolveBranchName_sticky.
           ++ apply resolveBranchName_passthrough; [done|].
              by intros ? [= <-].
        -- by apply resolveBranchName_passthrough.
      * intros ? [= <-]. simpl. by rewrite Htrim.
Qed.

(** Two fetches in a row for the same workspace that succeed with the
    same raw status: when the second is applied, the object on display is
    the one the first left there. *)
Theorem repoll_keeps_displayed_object (w : World) (r : Request) (data : RawStatus) :
  reachable w →
  r ∈ pending w →
  isStale r (hook w) = false →
  let first := step (Settle r (Resolves data)) w in
  let again := request (requestIdRef (hook first) + 1) (workspaceId r) in
  let polled := step (CallRefresh (Some (workspaceId r))) first in
  let second := step (Settle again (Resolves data)) polled in
  again ∈ pending polled
  ∧ isStale again (hook polled) = false
  ∧ status (hook second) = status (hook first)
  ∧ val (status (hook second)) =
      of_raw data
        (resolveBranchName (raw_branchName data)
           (val <$> cachedStatusRef (hook w) !! workspaceId r)).
Proof.
  intros Hreach Hin Hfresh first again polled second.
  destruct (inv_pending _ (reachable_invariant _ Hreach) r Hin) as [Hne _].
  pose proof Hfresh as [Hid Hws]%isStale_false.
  set (next := nextOnFulfilled r data (hook w)).
  assert (hook first =
            {| status := keepIfSame next (status (hook w));
               requestIdRef := requestIdRef (hook w);
               workspaceIdRef := workspaceIdRef (hook w);
               cachedStatusRef := <[workspaceId r := next]> (cachedStatusRef (hook w));
               allocated := allocated (hook w) + 1 |}) as Hfirst.
  { subst first. simpl. rewrite bool_decide_eq_true_2 by done. simpl.
    unfold settle, promiseThen, promiseCatch, thenHandler, catchHandler. simpl.
    by rewrite onFulfilled_fresh. }
  assert (hook polled = setRequestId (requestIdRef (hook first) + 1) (hook first)
          ∧ pending polled = pending first ++ [again]) as [Hpolled Hpending].
  { subst polled again. simpl. unfold fetchStatus, refresh.
    destruct (workspaceId r) as [|c id]; [done|]. done. }
  assert (isStale again (hook polled) = false) as Hfresh2.
  { apply isStale_false. rewrite Hpolled, Hfirst. simpl. split; [|done].
    subst again. simpl. by rewrite Hfirst. }
  assert (again ∈ pending polled) as Hin2.
  { rewrite Hpending. apply elem_of_app. right. apply list_elem_of_singleton. done. }
  assert (val (status (hook first)) = val next) as Hval.
  { rewrite Hfirst. simpl. apply keepIfSame_val. }
  assert (status (hook second) = status (hook first)) as Hsecond.
  { subst second. simpl. rewrite bool_decide_eq_true_2 by done. simpl.
    unfold settle, promiseThen, promiseCatch, thenHandler, catchHandler. simpl.
    rewrite onFulfilled_fresh by done. simpl.
    assert (status (hook polled) = status (hook first)) as -> by by rewrite Hpolled.
    unfold keepIfSame.
    assert (sameStatusState (val (status (hook first)))
              (val (nextOnFulfilled again data (hook polled))) = true) as ->; [|done].
    apply sameStatusState_eq. rewrite Hval.
    unfold nextOnFulfilled at 1. simpl.
    rewrite Hpolled, Hfirst. simpl. rewrite lookup_insert_eq. simpl.
    f_equal. symmetry. apply resolveBranchName_again. }
  split_and!; [done|done|done|].
  rewrite Hsecond. exact Hval.
Qed.

(** The same raw status twice for A: the object with identity 1 stays on
    display. *)
Lemma repoll_keeps_displayed_object_witness :
  oid (status (hook (run [Settle (request 1 wsA) (Resolves rawMain);
                          CallRefresh (Some wsA);
                          Settle (request 2 wsA) (Resolves rawMain)] worldMounted)))
  = 1%N.
Proof.
  destruct (repoll_keeps_displayed_object worldMounted (request 1 wsA) rawMain)
    as (_ & _ & Hsame & _).
  - apply reachable_worldMounted.
  - compute_done.
  - compute_done.
  - etrans; [exact (f_equal oid Hsame)|]. compute_done.
Defined.

(** ** The newest request, and the hook without a workspace *)

(** A call of [refresh] for a workspace supersedes every fetch in flight:
    each of them is stale from then on, and the request the call issued,
    the last one in flight, carries the current request number and passes
    the check exactly when its workspace is the recorded one. *)
Theorem newest_request_wins (w : World) (id : Js.str) (r : Request) :
  reachable w →
  id ≠ [] →
  r ∈ pending w →
  let w' := step (CallRefresh (Some id)) w in
  let newest := request (requestIdRef (hook w')) id in
  isStale r (hook w') = true
  ∧ pending w' = pending w ++ [newest]
  ∧ requestIdRef (hook w') = (requestIdRef (hook w) + 1)%N
  ∧ (isStale newest (hook w') = false ↔ workspaceIdRef (hook w) = Some id)
  ∧ status (hook w') = status (hook w).
Proof.
  intros Hreach Hne Hin w' newest.
  destruct (inv_pending _ (reachable_invariant _ Hreach) r Hin) as [_ Hle].
  assert (hook w' = setRequestId (requestIdRef (hook w) + 1) (hook w)
          ∧ pending w' = pending w ++ [request (requestIdRef (hook w) + 1) id])
    as [Hhook Hpending].
  { subst w'. simpl. unfold fetchStatus, refresh. by destruct id. }
  subst newest. rewrite Hhook. simpl. split_and!.
  - apply isStale_true. left. simpl. lia.
  - by rewrite Hpending.
  - done.
  - rewrite isStale_false. simpl. split; [by intros [_ ?]|done].
  - done.
Qed.

(** Request 1 for A is in flight; a caller refreshes: request 1 is stale
    and request 2 is the one in flight that counts. *)
Lemma newest_request_wins_witness :
  isStale (request 1 wsA) (hook worldMounted) = false
  ∧ isStale (request 1 wsA) (hook worldSuperseded) = true
  ∧ pending worldSuperseded = [request 1 wsA; request 2 wsA].
Proof.
  split; [compute_done|].
  destruct (newest_request_wins worldMounted wsA (request 1 wsA))
    as (Hstale & Hpending & _).
  - apply reachable_worldMounted.
  - compute_done.
  - compute_done.
  - split; [exact Hstale|]. etrans; [exact Hpending|]. compute_done.
Defined.

Lemma settle_refs r o h :
  workspaceIdRef (settle r o h).1 = workspaceIdRef h
  ∧ requestIdRef (settle r o h).1 = requestIdRef h.
Proof.
  destruct (isStale r h) eqn:Hs.
  - by rewrite settle_stale.
  - destruct o; unfold settle, promiseThen, promiseCatch, thenHandler, catchHandler; simpl.
    + by rewrite onFulfilled_fresh.
    + by rewrite onRejected_fresh.
Qed.

Lemma no_workspace_stale r h :
  workspaceId r ≠ [] → noWorkspace (workspaceIdRef h) → isStale r h = true.
Proof.
  intros Hne Hno. apply isStale_true. right.
  intros Href. rewrite Href in Hno. destruct Hno as [?|[= ?]]; done.
Qed.

Lemma no_workspace_empty w :
  reachable w → noWorkspace (workspaceIdRef (hook w)) → status (hook w) = emptyStatus.
Proof.
  induction 1 as [ws|e w Hreach IH]; [done|].
  pose proof (reachable_invariant _ Hreach) as Hinv.
  assert (∀ ws,
            noWorkspace (workspaceIdRef (hook (fetchStatus ws w))) →
            status (hook (fetchStatus ws w)) = emptyStatus) as Hfetch.
  { intros ws. unfold fetchStatus, refresh.
    destruct ws as [[|c id]|]; simpl; done. }
  assert (noWorkspace (workspaceIdRef (hook (runEffects w))) →
          status (hook (runEffects w)) = emptyStatus) as Heffects.
  { unfold runEffects. case_bool_decide as Hdeps; [done|].
    unfold pollingEffect, workspaceEffect, fetchStatus, refresh.
    case_bool_decide as Href; destruct (rendered w) as [[|c id]|] eqn:Hws; simpl;
      try done.
    by intros [?|?]. }
  destruct e as [ws| | |ws|r o]; simpl.
  - exact Heffects.
  - exact Heffects.
  - destruct (interval w) as [id|]; [apply Hfetch|done].
  - apply Hfetch.
  - case_bool_decide as Hin; [|done]. simpl.
    destruct (inv_pending _ Hinv r Hin) as [Hne _].
    destruct (settle_refs r o (hook w)) as [-> _].
    intros Hno. rewrite settle_stale by by apply no_workspace_stale.
    by apply IH.
Qed.

(** While the hook has recorded no workspace ([null], or the empty string,
    which [!workspaceId] treats alike), the module's empty default is on
    display, no interval runs and every fetch that settles is dropped; and
    the empty string is never the workspace of a fetch or a key of the
    cache. *)
Theorem no_workspace_shows_empty (w : World) :
  reachable w →
  noWorkspace (workspaceIdRef (hook w)) →
  status (hook w) = emptyStatus
  ∧ interval w = None
  ∧ (∀ r o, r ∈ pending w → hook (step (Settle r o) w) = hook w)
  ∧ (∀ r, r ∈ pending w → workspaceId r ≠ [])
  ∧ cachedStatusRef (hook w) !! [] = None.
Proof.
  intros Hreach Hno.
  pose proof (reachable_invariant _ Hreach) as Hinv.
  split_and!.
  - by apply no_workspace_empty.
  - destruct (interval w) as [id|] eqn:Hint; [|done].
    destruct (inv_interval _ Hinv _ Hint) as [Hne Href].
    rewrite Href in Hno. destruct Hno as [?|[= ?]]; done.
  - intros r o Hin. simpl. rewrite bool_decide_eq_true_2 by done. simpl.
    destruct (inv_pending _ Hinv r Hin) as [Hne _].
    by rewrite settle_stale by by apply no_workspace_stale.
  - intros r Hin. by destruct (inv_pending _ Hinv r Hin).
  - destruct (cachedStatusRef _ !! _) as [o|] eqn:Hlook; [|done].
    by destruct (inv_cache _ Hinv _ _ Hlook) as [? _].
Qed.

(** A's snapshot is on display and request 2 for A is in flight; the
    parent passes no workspace: the display is the empty default, and
    request 2, when it succeeds, changes nothing. *)
Lemma no_workspace_shows_empty_witness :
  let closed := run [Render None; Effects] worldPolling in
  status (hook worldPolling) ≠ emptyStatus
  ∧ status (hook closed) = emptyStatus
  ∧ interval closed = None
  ∧ hook (step (Settle (request 2 wsA) (Resolves rawMain)) closed) = hook closed.
Proof.
  destruct (no_workspace_shows_empty (run [Render None; Effects] worldPolling))
    as (Hempty & Hint & Hdrop & _).
  - apply reachable_run, reachable_worldPolling.
  - left. compute_done.
  - split; [compute_done|]. split; [exact Hempty|]. split; [exact Hint|].
    apply Hdrop. compute_done.
Defined.

(** ** What is on display *)

Lemma displayExplained_ext h h' :
  status h' = status h →
  workspaceIdRef h' = workspaceIdRef h →
  cachedStatusRef h' = cachedStatusRef h →
  displayExplained h → displayExplained h'.
Proof. unfold displayExplained. by intros -> -> ->. Qed.

Lemma displayExplained_empty h :
  status h = emptyStatus → displayExplained h.
Proof. intros Hs. left. by rewrite Hs. Qed.

Lemma displayExplained_cached h (id : list N) :
  workspaceIdRef h = Some id →
  status h = default emptyStatus (cachedStatusRef h !! id) →
  displayExplained h.
Proof.
  intros Href Hs.
  destruct (cachedStatusRef h !! id) as [o|] eqn:Hlook; simpl in Hs.
  - right; left. exists id, o. split_and!; [done|done|]. left. by rewrite Hs.
  - left. by rewrite Hs.
Qed.

Lemma displayExplained_fetchStatus ws w :
  displayExplained (hook w) → displayExplained (hook (fetchStatus ws w)).
Proof.
  intros H. unfold fetchStatus, refresh.
  destruct ws as [[|c id]|]; simpl;
    [by apply displayExplained_empty| |by apply displayExplained_empty].
  by apply (displayExplained_ext (hook w)).
Qed.

Lemma displayExplained_runEffects w :
  displayExplained (hook w) → displayExplained (hook (runEffects w)).
Proof.
  intros H. unfold runEffects. case_bool_decide as Hdeps; [done|].
  unfold pollingEffect.
  destruct (rendered w) as [[|c id]|] eqn:Hws;
    [by apply displayExplained_empty| |by apply displayExplained_empty].
  apply displayExplained_fetchStatus. simpl.
  unfold workspaceEffect. case_bool_decide as Href; simpl; [done|].
  by apply (displayExplained_cached _ (c :: id)).
Qed.

Lemma displayExplained_settle r o h :
  displayExplained h → displayExplained (settle r o h).1.
Proof.
  intros H. destruct (isStale r h) eqn:Hs.
  { by rewrite settle_stale. }
  pose proof Hs as [_ Href]%isStale_false.
  destruct o as [data|err]; unfold settle, promiseThen, promiseCatch, thenHandler, catchHandler; simpl.
  - rewrite onFulfilled_fresh by done.
    right; left. exists (workspaceId r), (nextOnFulfilled r data h). simpl.
    split_and!; [done|by rewrite lookup_insert_eq|].
    left. apply keepIfSame_val.
  - rewrite onRejected_fresh by done.
    destruct (cachedStatusRef h !! workspaceId r) as [c|] eqn:Hlook.
    + right; left. exists (workspaceId r), c. simpl.
      split_and!; [done|done|]. right. exists (messageOf err).
      rewrite keepIfSame_val. unfold nextOnRejected. simpl. by rewrite Hlook.
    + right; right. exists (workspaceId r), (messageOf err). simpl.
      split_and!; [done|done|].
      rewrite keepIfSame_val. unfold nextOnRejected. simpl. by rewrite Hlook.
Qed.

Lemma displayExplained_reachable w : reachable w → displayExplained (hook w).
Proof.
  induction 1 as [ws|e w _ IH]; [by left|].
  destruct e as [ws| | |ws|r o]; simpl.
  - by apply displayExplained_runEffects.
  - by apply displayExplained_runEffects.
  - destruct (interval w); [by apply displayExplained_fetchStatus|done].
  - by apply displayExplained_fetchStatus.
  - case_bool_decide; [|done]. simpl. by apply displayExplained_settle.
Qed.

(** The display never shows data of another workspace than the recorded
    one: at every moment the fields on display are the empty default, or
    the fields of the recorded workspace's cache entry, as they are or with
    an error message added, or the "unknown" failure snapshot when that
    workspace has no entry. In particular, data displayed without an error
    is the empty default or exactly the recorded workspace's cache entry. *)
Theorem display_explained_by_cache (w : World) :
  reachable w →
  displayExplained (hook w)
  ∧ (error (val (status (hook w))) = None →
     val (status (hook w)) = emptyFields
     ∨ ∃ id c, workspaceIdRef (hook w) = Some id
               ∧ cachedStatusRef (hook w) !! id = Some c
               ∧ val (status (hook w)) = val c).
Proof.
  intros Hreach.
  pose proof (displayExplained_reachable _ Hreach) as H.
  split; [done|]. intros Herr.
  destruct H as [H|[(id & c & Href & Hlook & [H|[m H]])|(id & m & _ & _ & H)]].
  - by left.
  - right. by exists id, c.
  - by rewrite H in Herr.
  - by rewrite H in Herr.
Qed.

(** After the switch to B and back to A, A's cache entry is what is on
    display. *)
Lemma display_explained_by_cache_witness :
  let back := run [Render (Some wsA); Effects] worldSwitched in
  error (val (status (hook back))) = None
  ∧ (val (status (hook back)) = emptyFields
     ∨ ∃ id c, workspaceIdRef (hook back) = Some id
               ∧ cachedStatusRef (hook back) !! id = Some c
               ∧ val (status (hook back)) = val c).
Proof.
  split; [compute_done|].
  apply (display_explained_by_cache (run [Render (Some wsA); Effects] worldSwitched)).
  - apply reachable_run, reachable_worldSwitched.
  - compute_done.
Defined.

(** ** Repeated failures, the interval, and the life of cache entries *)

(** Two fetches in a row for the same workspace that fail with the same
    message: when the second is applied, the object on display is the one
    the first left there, so a source that keeps failing the same way
    causes no further update of the display. *)
Theorem repeated_failure_keeps_displayed_object
    (w : World) (r : Request) (err err' : Rejection) :
  reachable w →
  r ∈ pending w →
  isStale r (hook w) = false →
  messageOf err' = messageOf err →
  let first := step (Settle r (Rejects err)) w in
  let again := request (requestIdRef (hook first) + 1) (workspaceId r) in
  let polled := step (CallRefresh (Some (workspaceId r))) first in
  let second := step (Settle again (Rejects err')) polled in
  again ∈ pending polled
  ∧ isStale again (hook polled) = false
  ∧ status (hook second) = status (hook first)
  ∧ error (val (status (hook second))) = Some (messageOf err).
Proof.
  intros Hreach Hin Hfresh Hmsg first again polled second.
  destruct (inv_pending _ (reachable_invariant _ Hreach) r Hin) as [Hne _].
  pose proof Hfresh as [Hid Hws]%isStale_false.
  set (next := nextOnRejected r err (hook w)).
  assert (hook first =
            {| status := keepIfSame next (status (hook w));
               requestIdRef := requestIdRef (hook w);
               workspaceIdRef := workspaceIdRef (hook w);
               cachedStatusRef := cachedStatusRef (hook w);
               allocated := allocated (hook w) + 1 |}) as Hfirst.
  { subst first. simpl. rewrite bool_decide_eq_true_2 by done. simpl.
    unfold settle, promiseThen, promiseCatch, thenHandler, catchHandler. simpl.
    by rewrite onRejected_fresh. }
  assert (hook polled = setRequestId (requestIdRef (hook first) + 1) (hook first)
          ∧ pending polled = pending first ++ [again]) as [Hpolled Hpending].
  { subst polled again. simpl. unfold fetchStatus, refresh.
    destruct (workspaceId r) as [|c id]; [done|]. done. }
  assert (isStale again (hook polled) = false) as Hfresh2.
  { apply isStale_false. rewrite Hpolled, Hfirst. simpl. split; [|done].
    subst again. simpl. by rewrite Hfirst. }
  assert (again ∈ pending polled) as Hin2.
  { rewrite Hpending. apply elem_of_app. right. apply list_elem_of_singleton. done. }
  assert (val (status (hook first)) = val next) as Hval.
  { rewrite Hfirst. simpl. apply keepIfSame_val. }
  assert (status (hook second) = status (hook first)) as Hsecond.
  { subst second. simpl. rewrite bool_decide_eq_true_2 by done. simpl.
    unfold settle, promiseThen, promiseCatch, thenHandler, catchHandler. simpl.
    rewrite onRejected_fresh by done. simpl.
    assert (status (hook polled) = status (hook first)) as -> by by rewrite Hpolled.
    unfold keepIfSame.
    assert (sameStatusState (val (status (hook first)))
              (val (nextOnRejected again err' (hook polled))) = true) as ->; [|done].
    apply sameStatusState_eq. rewrite Hval.
    unfold nextOnRejected. simpl.
    rewrite Hpolled, Hfirst, Hmsg. done. }
  split_and!; [done|done|done|].
  rewrite Hsecond, Hval. unfold next, nextOnRejected. simpl.
  by destruct (cachedStatusRef (hook w) !! workspaceId r).
Qed.

(** A's first fetch fails twice with "timeout": the object the first
    failure built, of identity 1, stays on display. *)
Lemma repeated_failure_keeps_displayed_object_witness :
  oid (status (hook (run [Settle (request 1 wsA) (Rejects (ErrorObject js:"timeout"));
                          CallRefresh (Some wsA);
                          Settle (request 2 wsA) (Rejects (OtherValue js:"timeout"))]
                       worldMounted)))
  = 1%N.
Proof.
  destruct (repeated_failure_keeps_displayed_object worldMounted (request 1 wsA)
              (ErrorObject js:"timeout") (OtherValue js:"timeout"))
    as (_ & _ & Hsame & _).
  - apply reachable_worldMounted.
  - compute_done.
  - compute_done.
  - compute_done.
  - etrans; [exact (f_equal oid Hsame)|]. compute_done.
Defined.

Lemma interval_follows_deps w : reachable w → interval w = pollingTarget (effectDeps w).
Proof.
  induction 1 as [ws|e w _ IH]; [done|].
  assert (interval (runEffects w) = pollingTarget (effectDeps (runEffects w)))
    as Heffects.
  { unfold runEffects. case_bool_decide as Hdeps; [done|].
    unfold pollingEffect, fetchStatus, refresh.
    by destruct (rendered w) as [[|c id]|]. }
  assert (∀ ws, interval (fetchStatus ws w) = pollingTarget (effectDeps (fetchStatus ws w)))
    as Hfetch.
  { intros ws. unfold fetchStatus, refresh. by destruct ws as [[|c id]|]. }
  destruct e as [ws| | |ws|r o]; simpl.
  - exact Heffects.
  - exact Heffects.
  - destruct (interval w) eqn:Hint; [|by rewrite Hint].
    apply Hfetch.
  - apply Hfetch.
  - by case_bool_decide.
Qed.

(** An interval runs exactly for the workspace the effects last ran with:
    none before the first effects, none when that workspace is [null] or
    the empty string, and otherwise one whose ticks fetch that workspace,
    which is then the recorded one. So once the effects of a render have
    run, polling is on for the rendered workspace and off without one. *)
Theorem polling_follows_effects (w : World) :
  reachable w →
  interval w = pollingTarget (effectDeps w)
  ∧ interval (step Effects w) = pollingTarget (Some (rendered w))
  ∧ (∀ id, interval w = Some id →
       workspaceIdRef (hook w) = Some id
       ∧ pending (step Tick w)
         = pending w ++ [request (requestIdRef (hook w) + 1) id]).
Proof.
  intros Hreach.
  pose proof (reachable_invariant _ Hreach) as Hinv.
  split_and!.
  - by apply interval_follows_deps.
  - rewrite (interval_follows_deps (step Effects w)) by by constructor.
    simpl. by destruct (runEffects_deps w) as [-> _].
  - intros id Hint. destruct (inv_interval _ Hinv _ Hint) as [Hne Href].
    split; [done|]. simpl. rewrite Hint.
    unfold fetchStatus, refresh. by destruct id.
Qed.

(** A's interval runs; the parent passes no workspace and the effects
    run: no interval; it passes B and the effects run: B is polled. *)
Lemma polling_follows_effects_witness :
  interval worldPolling = Some wsA
  ∧ interval (run [Render None; Effects] worldPolling) = None
  ∧ interval (run [Render (Some wsB); Effects] worldPolling) = Some wsB.
Proof.
  split; [compute_done|]. split.
  - destruct (polling_follows_effects (run [Render None] worldPolling))
      as (_ & H & _).
    + apply reachable_run, reachable_worldPolling.
    + etrans; [exact H|]. compute_done.
  - destruct (polling_follows_effects (run [Render (Some wsB)] worldPolling))
      as (_ & H & _).
    + apply reachable_run, reachable_worldPolling.
    + etrans; [exact H|]. compute_done.
Defined.

(** A step changes the cache entry of a workspace only when it applies a
    successful fetch for that workspace. *)
Lemma step_cache_frame e w (id : list N) :
  cachedStatusRef (hook (step e w)) !! id ≠ cachedStatusRef (hook w) !! id →
  ∃ r data, e = Settle r (Resolves data)
            ∧ workspaceId r = id
            ∧ r ∈ pending w
            ∧ isStale r (hook w) = false
            ∧ cachedStatusRef (hook (step e w)) !! id
              = Some (nextOnFulfilled r data (hook w)).
Proof.
  destruct e as [ws| | |ws|r o]; simpl.
  - by rewrite runEffects_cache.
  - by rewrite runEffects_cache.
  - destruct (interval w); [by rewrite fetchStatus_cache|done].
  - by rewrite fetchStatus_cache.
  - case_bool_decide as Hin; [|done]. simpl.
    destruct (isStale r (hook w)) eqn:Hs.
    { by rewrite settle_stale. }
    destruct o as [data|err]; unfold settle, promiseThen, promiseCatch, thenHandler, catchHandler; simpl.
    + rewrite onFulfilled_fresh by done. simpl.
      destruct (decide (workspaceId r = id)) as [<-|Hne].
      * intros _. exists r, data. by rewrite lookup_insert_eq.
      * by rewrite lookup_insert_ne.
    + by rewrite onRejected_cache.
Qed.

(** The cache entry of a workspace is touched by nothing but a successful
    fetch for that very workspace that passes the stale check: any other
    event (a render, the effects, a tick, a refresh, a failure, a stale
    response, a success for another workspace) leaves the entry as it
    was. *)
Theorem cache_entry_changes_only_on_own_success
    (e : Event) (w : World) (id : list N) :
  (∀ r data, e = Settle r (Resolves data) →
     workspaceId r ≠ id ∨ r ∉ pending w ∨ isStale r (hook w) = true) →
  cachedStatusRef (hook (step e w)) !! id = cachedStatusRef (hook w) !! id.
Proof.
  intros Hother.
  destruct (decide (cachedStatusRef (hook (step e w)) !! id
                    = cachedStatusRef (hook w) !! id)) as [Heq|Hne]; [done|].
  destruct (step_cache_frame e w id Hne) as (r & data & -> & Hid & Hin & Hfresh & _).
  destruct (Hother r data eq_refl) as [?|[?|Hstale]]; [done|done|].
  by rewrite Hstale in Hfresh.
Qed.

(** A's entry is cached; B becomes active and B's fetch succeeds: A's
    entry is the one it was. *)
Lemma cache_entry_changes_only_on_own_success_witness :
  request 4 wsB ∈ pending worldSwitched
  ∧ isStale (request 4 wsB) (hook worldSwitched) = false
  ∧ cachedStatusRef
      (hook (step (Settle (request 4 wsB) (Resolves rawMain)) worldSwitched)) !! wsA
    = cachedStatusRef (hook worldSwitched) !! wsA.
Proof.
  split; [compute_done|]. split; [compute_done|].
  apply (cache_entry_changes_only_on_own_success
           (Settle (request 4 wsB) (Resolves rawMain)) worldSwitched wsA).
  intros r data [= <- _]. left. compute_done.
Defined.

(** The cache only grows: whatever events follow, a workspace that has a
    cache entry keeps one. *)
Theorem cache_never_shrinks (events : list Event) (w : World) (id : list N) :
  is_Some (cachedStatusRef (hook w) !! id) →
  is_Some (cachedStatusRef (hook (run events w)) !! id).
Proof.
  revert w. induction events as [|e events IH]; intros w Hsome; simpl; [done|].
  apply IH.
  destruct (decide (cachedStatusRef (hook (step e w)) !! id
                    = cachedStatusRef (hook w) !! id)) as [->|Hne]; [done|].
  destruct (step_cache_frame e w id Hne) as (r & data & _ & _ & _ & _ & ->).
  by eexists.
Qed.

(** A's entry survives a failure for A, the switch to B, and a success
    for B. *)
Lemma cache_never_shrinks_witness :
  is_Some
    (cachedStatusRef
       (hook (run [Settle (request 2 wsA) (Rejects (ErrorObject js:"network down"));
                   Render (Some wsB); Effects;
                   Settle (request 4 wsB) (Resolves rawMain)] worldPolling)) !! wsA).
Proof.
  apply (cache_never_shrinks _ worldPolling wsA). compute_done.
Defined.

(** * Inserting text into the composer *)

Module ComposerInsertFacts.
Import ComposerInsert.

Lemma endsWithSpace_snoc (s : Js.str) c :
  endsWithSpace (s ++ [c]) = Js.isWhiteSpace c.
Proof. unfold endsWithSpace. by rewrite last_snoc. Qed.

Lemma startsWithSpace_space (s : Js.str) : startsWithSpace (space ++ s) = true.
Proof. reflexivity. Qed.

Lemma needs_space_before (s : Js.str) :
  negb (bool_decide (length s = 0)) && negb (endsWithSpace s)
  = negb (bool_decide (s = []) || endsWithSpace s).
Proof. destruct s; [done|]. by rewrite !bool_decide_eq_false_2 by done. Qed.

(** The left part of the new text: what precedes the inserted text. *)
Lemma left_part (before : Js.str) :
  let needsSpaceBefore :=
    negb (bool_decide (length before = 0)) && negb (endsWithSpace before) in
  let l := before ++ (if needsSpaceBefore then space else []) in
  (l = [] ∨ endsWithSpace l = true)
  ∧ (endsWithSpace before = true ∨ before = [] → l = before)
  ∧ length l ≤ length before + 1.
Proof.
  intros needs l. subst needs l.
  destruct before as [|c before].
  { rewrite bool_decide_eq_true_2 by done. simpl. split_and!; [by left|done|lia]. }
  rewrite bool_decide_eq_false_2 by done. simpl negb. rewrite andb_true_l.
  destruct (endsWithSpace (c :: before)) eqn:Hend; simpl negb; cbv iota.
  - rewrite app_nil_r. split_and!; [by right|done|lia].
  - split_and!.
    + right. apply (endsWithSpace_snoc (c :: before) 32%N).
    + by intros [?|?].
    + rewrite length_app. simpl. lia.
Qed.

(** The right part of the new text: what follows the inserted text. *)
Lemma right_part (after : Js.str) :
  let needsSpaceAfter :=
    negb (bool_decide (length after = 0)) && negb (startsWithSpace after) in
  let r := (if needsSpaceAfter then space else []) ++ after in
  (r = [] ∨ startsWithSpace r = true)
  ∧ (startsWithSpace after = true ∨ after = [] → r = after)
  ∧ length r = (if needsSpaceAfter then 1 else 0) + length after.
Proof.
  intros needs r. subst needs r.
  destruct after as [|c after].
  { rewrite bool_decide_eq_true_2 by done. simpl. split_and!; [by left|done|done]. }
  rewrite bool_decide_eq_false_2 by done. simpl negb. rewrite andb_true_l.
  destruct (startsWithSpace (c :: after)) eqn:Hstart; simpl negb; cbv iota.
  - split_and!; [by right|done|done].
  - split_and!; [by right|by intros [?|?]|done].
Qed.

(** An enabled insertion always produces a new draft, of the form
    [l ++ insertText ++ r]: [l] starts with the draft up to the selection,
    [r] ends with the draft from the end of the selection on (the selected
    text is gone), each with at most one space added. The inserted text
    never touches its neighbours: [l] is empty or ends in white space, [r]
    is empty or starts with white space. And no space is added where the
    draft already has white space or ends. *)
Theorem insert_delimits_text (draftText : Js.str) (textarea : option Textarea)
    (insertText : Js.str) :
  let start := from_option selectionStart (length draftText) textarea in
  let before := take start draftText in
  let after := drop (from_option selectionEnd start textarea) draftText in
  ∃ l r,
    option_map nextText (insert true draftText textarea insertText)
    = Some (l ++ insertText ++ r)
    ∧ before `prefix_of` l
    ∧ after `suffix_of` r
    ∧ length l ≤ length before + 1
    ∧ length r ≤ length after + 1
    ∧ (l = [] ∨ endsWithSpace l = true)
    ∧ (r = [] ∨ startsWithSpace r = true)
    ∧ (endsWithSpace before = true ∨ before = [] → l = before)
    ∧ (startsWithSpace after = true ∨ after = [] → r = after).
Proof.
  intros start before after.
  destruct (left_part before) as (Hl1 & Hl2 & Hl3).
  destruct (right_part after) as (Hr1 & Hr2 & Hr3).
  eexists (before ++ _), (_ ++ after).
  split_and!; [| | |exact Hl3| |exact Hl1|exact Hr1|exact Hl2|exact Hr2].
  - unfold insert. simpl. unfold jsSlice. rewrite Nat.sub_0_r, drop_0.
    fold start. fold before. fold after. by rewrite <- !app_assoc.
  - by eexists.
  - unfold suffix. by eexists.
  - rewrite Hr3.
    assert (∀ b : bool, (if b then 1 else 0) + length after ≤ length after + 1) as Hb
      by (intros []; lia).
    apply Hb.
Qed.

(** The test of the repository: "Hello" with the caret at its end, and
    "./src" inserted, gives "Hello ./src". *)
Lemma insert_delimits_text_witness :
  option_map nextText
    (insert true js:"Hello" (Some (mkTextarea 5 5)) js:"./src")
  = Some js:"Hello ./src".
Proof.
  destruct (insert_delimits_text js:"Hello" (Some (mkTextarea 5 5)) js:"./src")
    as (l & r & Hnext & _).
  rewrite Hnext. f_equal.
  apply (inj Some). rewrite <- Hnext. compute_done.
Defined.

(** After an insertion the caret stands right behind the inserted text
    and the space that may follow it: what lies behind the caret is the
    draft from the end of the selection on, unchanged, and what lies
    before it ends with the inserted text, or with the inserted text and
    one space. *)
Theorem insert_cursor_keeps_tail (draftText : Js.str) (textarea : option Textarea)
    (insertText : Js.str) :
  let start := from_option selectionStart (length draftText) textarea in
  let after := drop (from_option selectionEnd start textarea) draftText in
  ∃ done,
    insert true draftText textarea insertText = Some done
    ∧ cursor done ≤ length (nextText done)
    ∧ drop (cursor done) (nextText done) = after
    ∧ (insertText `suffix_of` take (cursor done) (nextText done)
       ∨ (insertText ++ space) `suffix_of` take (cursor done) (nextText done)).
Proof.
  intros start after.
  unfold insert. simpl. unfold jsSlice. rewrite Nat.sub_0_r, drop_0.
  fold start. fold after.
  set (before := take start draftText).
  set (needsBefore := negb (bool_decide (length before = 0)) && negb (endsWithSpace before)).
  set (needsAfter := negb (bool_decide (length after = 0)) && negb (startsWithSpace after)).
  eexists. split; [reflexivity|]. simpl.
  match goal with
  | |- context [before ++ ?p ++ insertText ++ ?x ++ after] =>
      set (sfx := x); set (pfx := p)
  end.
  assert (length before + length pfx + length insertText
          + (if needsAfter then 1 else 0)
          = length (before ++ pfx ++ insertText ++ sfx)) as Hcursor.
  { rewrite !length_app. subst sfx. destruct needsAfter; simpl; lia. }
  rewrite Hcursor.
  assert (before ++ pfx ++ insertText ++ sfx ++ after
          = (before ++ pfx ++ insertText ++ sfx) ++ after) as Hassoc
    by by rewrite <- !app_assoc.
  rewrite Hassoc.
  split_and!.
  - rewrite !length_app. lia.
  - by rewrite drop_app_length.
  - rewrite take_app_length. subst sfx. destruct needsAfter.
    + right. exists (before ++ pfx). by rewrite <- !app_assoc.
    + left. exists (before ++ pfx). by rewrite app_nil_r, <- !app_assoc.
Qed.

(** "foo" goes in front of "here" in "see here": a space is added behind
    it, and the caret ends behind that space. *)
Lemma insert_cursor_keeps_tail_witness :
  insert true js:"see here" (Some (mkTextarea 4 4)) js:"foo"
  = Some {| nextText := js:"see foo here"; cursor := 8 |}.
Proof.
  destruct (insert_cursor_keeps_tail js:"see here" (Some (mkTextarea 4 4)) js:"foo")
    as (done & Hdone & _).
  rewrite Hdone. f_equal.
  apply (inj Some). rewrite <- Hdone. compute_done.
Defined.

(** Without a textarea the text goes to the end of the latest draft: the
    new draft is the old one, one space unless the old one is empty or ends
    in white space, and the inserted text; the caret position computed is
    the end of the new draft. *)
Theorem insert_appends_without_textarea (draftText insertText : Js.str) :
  let separator :=
    if bool_decide (draftText = []) || endsWithSpace draftText then [] else space in
  insert true draftText None insertText
  = Some {| nextText := draftText ++ separator ++ insertText;
            cursor := length (draftText ++ separator ++ insertText) |}.
Proof.
  intros separator. subst separator.
  unfold insert. simpl. unfold jsSlice.
  rewrite Nat.sub_0_r, drop_0, firstn_all, drop_all. simpl.
  rewrite !app_nil_r, Nat.add_0_r, needs_space_before.
  assert (length space = 1) as Hspace by reflexivity.
  destruct (bool_decide (draftText = []) || endsWithSpace draftText);
    simpl negb; cbv iota; rewrite !length_app; do 2 f_equal; simpl length; lia.
Qed.

(** The third test of the repository: no textarea, latest draft "Hello
    world". *)
Lemma insert_appends_without_textarea_witness :
  option_map nextText (insert true js:"Hello world" None js:"./src")
  = Some js:"Hello world ./src".
Proof.
  rewrite (insert_appends_without_textarea js:"Hello world" js:"./src").
  compute_done.
Defined.

End ComposerInsertFacts.

(** * The composer's autocomplete *)

Module AutocompleteFacts.
Import Autocomplete.

Lemma getTokenStart_le text cursor : getTokenStart text cursor ≤ cursor.
Proof.
  induction cursor as [|index IH]; simpl; [done|].
  destruct (isSpaceAt text index); lia.
Qed.

Lemma getTokenStart_token text cursor i :
  getTokenStart text cursor ≤ i < cursor → isSpaceAt text i = false.
Proof.
  induction cursor as [|index IH]; simpl; [lia|].
  destruct (isSpaceAt text index) eqn:Hspace; [lia|].
  intros Hi. destruct (decide (i = index)) as [->|Hne]; [done|].
  apply IH. lia.
Qed.

Lemma getTokenStart_boundary text cursor :
  getTokenStart text cursor = 0
  ∨ isSpaceAt text (getTokenStart text cursor - 1) = true.
Proof.
  induction cursor as [|index IH]; simpl; [by left|].
  destruct (isSpaceAt text index) eqn:Hspace; [|done].
  right. simpl. by rewrite Nat.sub_0_r.
Qed.

(** The token the caret is in or behind: [getTokenStart] answers a
    position at or before the caret with no white space between it and the
    caret, and which is the start of the text or follows white space. So
    it is the start of the longest run without white space that ends at
    the caret. *)
Theorem getTokenStart_is_token_start (text : Js.str) (cursor : nat) :
  let tokenStart := getTokenStart text cursor in
  tokenStart ≤ cursor
  ∧ (∀ i, tokenStart ≤ i < cursor → isSpaceAt text i = false)
  ∧ (tokenStart = 0 ∨ isSpaceAt text (tokenStart - 1) = true)
  ∧ (∀ start, start ≤ cursor →
       (∀ i, start ≤ i < cursor → isSpaceAt text i = false) →
       tokenStart ≤ start).
Proof.
  intros tokenStart. split_and!.
  - apply getTokenStart_le.
  - apply getTokenStart_token.
  - apply getTokenStart_boundary.
  - intros start Hle Hrun.
    destruct (getTokenStart_boundary text cursor) as [Hzero|Hspace];
      [fold tokenStart in Hzero; lia|].
    fold tokenStart in Hspace.
    destruct (decide (tokenStart ≤ start)) as [|Hlt]; [done|].
    rewrite Hrun in Hspace; [done|].
    pose proof (getTokenStart_le text cursor). fold tokenStart in H. lia.
Qed.

(** "ask @bo" with the caret at the end: the token starts at the "@". *)
Lemma getTokenStart_is_token_start_witness :
  getTokenStart js:"ask @bo" 7 = 4.
Proof.
  destruct (getTokenStart_is_token_start js:"ask @bo" 7)
    as (_ & Hrun & _ & Hleast).
  apply Nat.le_antisymm.
  - apply Hleast; [lia|]. intros i Hi.
    assert (i = 4 ∨ i = 5 ∨ i = 6) as [->| [->| ->]] by lia; compute_done.
  - destruct (decide (4 ≤ getTokenStart js:"ask @bo" 7)) as [|Hless]; [done|].
    assert (isSpaceAt js:"ask @bo" 3 = false) as Hspace by (apply Hrun; lia).
    by compute in Hspace.
Defined.

Lemma jsSlice_elem (text : Js.str) (from to : nat) (c : N) :
  c ∈ jsSlice text from to → ∃ i, from ≤ i < to ∧ text !! i = Some c.
Proof.
  unfold jsSlice. intros [j Hj]%list_elem_of_lookup.
  apply lookup_take_Some in Hj as [Hj Hlt].
  rewrite lookup_drop in Hj. exists (from + j). split; [lia|done].
Qed.

(** When the autocomplete is active, the caret's token starts with a
    character that is the whole trigger string of one of the triggers; the
    trigger reported is that character, the range runs from behind it to
    the caret, and the query is the text in that range, which holds no
    white space. *)
Theorem active_autocomplete_shape (text : Js.str) (cursor : nat)
    (triggers : list AutocompleteTrigger) :
  let state := resolveAutocompleteState text cursor triggers in
  let tokenStart := getTokenStart text cursor in
  active state = true →
  ∃ c entry,
    text !! tokenStart = Some c
    ∧ entry ∈ triggers
    ∧ trigger entry = [c]
    ∧ activeTrigger state = Some [c]
    ∧ range state = Some {| rangeStart := tokenStart + 1; rangeEnd := cursor |}
    ∧ query state = jsSlice text (tokenStart + 1) cursor
    ∧ Forall (λ ch, Js.isWhiteSpace ch = false) (query state)
    ∧ length (query state) ≤ cursor - tokenStart.
Proof.
  intros state tokenStart. subst state. unfold resolveAutocompleteState.
  fold tokenStart.
  case_bool_decide as Hlen; [done|].
  destruct (text !! tokenStart) as [c|] eqn:Hc; [|done].
  destruct (find _ triggers) as [entry|] eqn:Hfind; [|done].
  intros _. simpl.
  apply find_some in Hfind as [Hin Htrigger].
  apply bool_decide_eq_true in Htrigger.
  exists c, entry. split_and!; try done.
  - by apply list_elem_of_In.
  - apply Forall_forall. intros ch [i [Hi Hch]]%jsSlice_elem.
    pose proof (getTokenStart_token text cursor i) as Htoken.
    fold tokenStart in Htoken. unfold isSpaceAt in Htoken. rewrite Hch in Htoken.
    apply Htoken. lia.
  - unfold jsSlice. rewrite length_take. lia.
Qed.

(** "ask @bo" with the caret at the end: the "@" menu, query "bo". *)
Lemma active_autocomplete_shape_witness :
  query (resolveAutocompleteState js:"ask @bo" 7 atTrigger) = js:"bo"
  ∧ Forall (λ ch, Js.isWhiteSpace ch = false)
      (query (resolveAutocompleteState js:"ask @bo" 7 atTrigger)).
Proof.
  split; [compute_done|].
  destruct (active_autocomplete_shape js:"ask @bo" 7 atTrigger)
    as (c & entry & _ & _ & _ & _ & _ & _ & Hquery & _); [compute_done|].
  exact Hquery.
Defined.

(** With the caret directly in front of a trigger character that starts
    a token, and not behind any character of that token, the autocomplete
    is active with an empty query and a range whose start lies one behind
    its end. *)
Theorem caret_before_trigger_is_active (text : Js.str) (cursor : nat) (c : N)
    (triggers : list AutocompleteTrigger) :
  cursor = 0 ∨ isSpaceAt text (cursor - 1) = true →
  text !! cursor = Some c →
  (∃ entry, entry ∈ triggers ∧ trigger entry = [c]) →
  resolveAutocompleteState text cursor triggers
  = {| active := true;
       activeTrigger := Some [c];
       query := [];
       range := Some {| rangeStart := cursor + 1; rangeEnd := cursor |} |}.
Proof.
  intros Hboundary Hc (entry & Hin & Htrigger).
  assert (getTokenStart text cursor = cursor) as Hstart.
  { destruct cursor as [|index]; [done|]. simpl.
    destruct Hboundary as [?|Hspace]; [done|].
    simpl in Hspace. rewrite Nat.sub_0_r in Hspace. by rewrite Hspace. }
  unfold resolveAutocompleteState. rewrite Hstart.
  rewrite bool_decide_eq_false_2.
  2:{ apply lookup_lt_Some in Hc. lia. }
  rewrite Hc.
  destruct (find _ triggers) as [matched|] eqn:Hfind.
  - f_equal. unfold jsSlice.
    replace (cursor - (cursor + 1)) with 0 by lia. done.
  - exfalso. apply list_elem_of_In in Hin.
    pose proof (find_none _ _ Hfind entry Hin) as Hnone. simpl in Hnone.
    by rewrite bool_decide_eq_true_2 in Hnone.
Qed.

(** "ask @bo" with the caret between the space and the "@". *)
Lemma caret_before_trigger_is_active_witness :
  range (resolveAutocompleteState js:"ask @bo" 4 atTrigger)
  = Some {| rangeStart := 5; rangeEnd := 4 |}.
Proof.
  rewrite (caret_before_trigger_is_active js:"ask @bo" 4 64%N atTrigger).
  - reflexivity.
  - right. compute_done.
  - compute_done.
  - exists {| trigger := js:"@"; items := [] |}. split; [constructor|reflexivity].
Defined.

(** The autocomplete stays closed when no trigger string is a single
    code unit (a trigger of two characters, or one outside the basic
    plane, never fires), and when the caret stands at the end of the text
    right behind white space. *)
Theorem autocomplete_stays_closed (text : Js.str) (cursor : nat)
    (triggers : list AutocompleteTrigger) :
  (∀ entry, entry ∈ triggers → length (trigger entry) ≠ 1)
  ∨ (length text ≤ cursor ∧ isSpaceAt text (cursor - 1) = true) →
  resolveAutocompleteState text cursor triggers = inactive.
Proof.
  intros [Hlong|[Hend Hspace]]; unfold resolveAutocompleteState.
  - case_bool_decide; [done|].
    destruct (text !! _) as [c|]; [|done].
    destruct (find _ triggers) as [entry|] eqn:Hfind; [|done].
    apply find_some in Hfind as [Hin Htrigger].
    apply bool_decide_eq_true in Htrigger.
    apply list_elem_of_In in Hin. apply Hlong in Hin. by rewrite Htrigger in Hin.
  - assert (getTokenStart text cursor = cursor) as ->.
    { destruct cursor as [|index]; [done|]. simpl.
      simpl in Hspace. rewrite Nat.sub_0_r in Hspace. by rewrite Hspace. }
    by rewrite bool_decide_eq_true_2.
Qed.

(** "ask @bo " with the caret behind the last space; and "@@" as the only
    trigger. *)
Lemma autocomplete_stays_closed_witness :
  resolveAutocompleteState js:"ask @bo " 8 atTrigger = inactive
  ∧ resolveAutocompleteState js:"ask @bo" 7 [{| trigger := js:"@@"; items := [] |}]
    = inactive.
Proof.
  split.
  - apply autocomplete_stays_closed. right. compute_done.
  - apply autocomplete_stays_closed. left.
    intros entry ->%list_elem_of_singleton. compute_done.
Defined.

Lemma roundToDouble_safe (z : Z) : safeInteger z → roundToDouble z = Integer z.
Proof.
  intros [Hlow Hhigh]. unfold roundToDouble.
  assert ((Z.abs z <? 2 ^ 53)%Z = true) as ->; [|done].
  apply Z.ltb_lt. lia.
Qed.

(** Within the safe range the index arithmetic is the exact one. *)
Lemma moveHighlight_safe (matchesLength : nat) (delta prev : Z) :
  matchesLength ≠ 0 →
  let n := Z.of_nat matchesLength in
  safeInteger (prev + delta) →
  safeInteger (prev + delta + n) →
  moveHighlight matchesLength (Integer delta) (Integer prev)
  = Integer (Z.rem (prev + delta + n) n).
Proof.
  intros Hne n Hsum Hall. unfold moveHighlight.
  rewrite bool_decide_eq_false_2 by done. fold n. simpl.
  rewrite roundToDouble_safe by done. simpl.
  rewrite roundToDouble_safe by done. simpl.
  assert ((n =? 0)%Z = false) as ->; [|done].
  apply Z.eqb_neq. lia.
Qed.

Lemma safeInteger_small (z : Z) : (- 2 ^ 34 < z < 2 ^ 34)%Z → safeInteger z.
Proof.
  unfold safeInteger.
  change (2 ^ 34)%Z with 17179869184%Z.
  change (2 ^ 53)%Z with 9007199254740992%Z. lia.
Qed.

(** With matches to move through, an array holding fewer than 2^32 of
    them, and numbers that are integers: a move whose sums stay in the
    safe range and whose [prev + delta] is not below minus the number of
    matches (a step of one in either direction from any index of a match)
    lands on the index [(prev + delta) mod n], an index of a match; a step
    down from the last match lands on the first and a step up from the
    first on the last; and a step forth and a step back cancel. *)
Theorem moveHighlight_wraps (matchesLength : nat) (delta prev : Z) :
  matchesLength ≠ 0 →
  (Z.of_nat matchesLength < 2 ^ 32)%Z →
  let n := Z.of_nat matchesLength in
  (safeInteger prev → safeInteger delta →
   safeInteger (prev + delta) → safeInteger (prev + delta + n) →
   (0 ≤ prev + delta + n)%Z →
   moveHighlight matchesLength (Integer delta) (Integer prev)
   = Integer ((prev + delta) mod n)
   ∧ (0 ≤ (prev + delta) mod n < n)%Z)
  ∧ moveHighlight matchesLength (Integer 1) (Integer (n - 1)) = Integer 0
  ∧ moveHighlight matchesLength (Integer (-1)) (Integer 0) = Integer (n - 1)
  ∧ ((0 ≤ prev < n)%Z →
     moveHighlight matchesLength (Integer (-1))
       (moveHighlight matchesLength (Integer 1) (Integer prev)) = Integer prev
     ∧ moveHighlight matchesLength (Integer 1)
         (moveHighlight matchesLength (Integer (-1)) (Integer prev)) = Integer prev).
Proof.
  intros Hne Hlength n. fold n in Hlength.
  change (2 ^ 32)%Z with 4294967296%Z in Hlength.
  assert (0 < n)%Z as Hn by lia.
  assert (∀ a, (0 ≤ a)%Z → Z.rem a n = (a mod n)%Z) as Hrem.
  { intros a Ha. apply Z.rem_mod_nonneg; lia. }
  assert (∀ a r, (0 ≤ r < n)%Z → (a = r ∨ a = r + n ∨ a = r + 2 * n)%Z →
            Z.rem a n = r) as Hwrap.
  { intros a r Hr Ha. rewrite Hrem by lia. destruct Ha as [->|[->| ->]].
    - apply Z.mod_small. lia.
    - replace (r + n)%Z with (r + 1 * n)%Z by lia.
      rewrite Z_mod_plus_full. apply Z.mod_small. lia.
    - rewrite Z_mod_plus_full. apply Z.mod_small. lia. }
  assert (∀ d p r, (-1 ≤ d ≤ 1)%Z → (0 ≤ p < n)%Z → (0 ≤ r < n)%Z →
            (p + d + n = r ∨ p + d + n = r + n ∨ p + d + n = r + 2 * n)%Z →
            moveHighlight matchesLength (Integer d) (Integer p) = Integer r) as Hstep.
  { intros d p r Hd Hp Hr Hcase.
    rewrite moveHighlight_safe; [|done|..].
    - fold n. f_equal. by apply Hwrap.
    - apply safeInteger_small. change (2 ^ 34)%Z with 17179869184%Z. lia.
    - apply safeInteger_small. fold n. change (2 ^ 34)%Z with 17179869184%Z. lia. }
  split_and!.
  - intros _ _ Hsum Hall Hnonneg.
    rewrite moveHighlight_safe by done. fold n.
    rewrite Hrem by done.
    replace (prev + delta + n)%Z with (prev + delta + 1 * n)%Z by lia.
    rewrite Z_mod_plus_full. split; [done|]. apply Z.mod_pos_bound. lia.
  - apply Hstep; lia.
  - apply Hstep; lia.
  - intros Hprev.
    destruct (decide (prev = n - 1)%Z) as [Hislast|Hnotlast];
      destruct (decide (prev = 0)%Z) as [Hzero|Hnotfirst].
    + rewrite (Hstep 1%Z prev 0%Z), (Hstep (-1)%Z prev 0%Z) by lia.
      rewrite (Hstep (-1)%Z 0%Z prev), (Hstep 1%Z 0%Z prev) by lia. done.
    + rewrite (Hstep 1%Z prev 0%Z), (Hstep (-1)%Z prev (prev - 1)%Z) by lia.
      rewrite (Hstep (-1)%Z 0%Z prev), (Hstep 1%Z (prev - 1)%Z prev) by lia. done.
    + rewrite (Hstep 1%Z prev (prev + 1)%Z), (Hstep (-1)%Z prev (n - 1)%Z) by lia.
      rewrite (Hstep (-1)%Z (prev + 1)%Z prev), (Hstep 1%Z (n - 1)%Z prev) by lia. done.
    + rewrite (Hstep 1%Z prev (prev + 1)%Z), (Hstep (-1)%Z prev (prev - 1)%Z) by lia.
      rewrite (Hstep (-1)%Z (prev + 1)%Z prev), (Hstep 1%Z (prev - 1)%Z prev) by lia. done.
Qed.

(** Three matches: down from the last, up from the first. *)
Lemma moveHighlight_wraps_witness :
  moveHighlight 3 (Integer 1) (Integer 2) = Integer 0
  ∧ moveHighlight 3 (Integer (-1)) (Integer 0) = Integer 2.
Proof.
  destruct (moveHighlight_wraps 3 1 2) as (_ & Hlast & Hfirst & _); [done..|].
  split; [exact Hlast|exact Hfirst].
Defined.

(** [%] keeps the sign of the dividend: with numbers that are integers
    and sums that stay in the safe range, a move whose [prev + delta] lies
    below minus the number of matches yields an index that is not
    positive, and a negative one unless the sum is a multiple of the
    number of matches. *)
Theorem moveHighlight_far_back (matchesLength : nat) (delta prev : Z) :
  matchesLength ≠ 0 →
  let n := Z.of_nat matchesLength in
  safeInteger prev →
  safeInteger delta →
  safeInteger (prev + delta) →
  safeInteger (prev + delta + n) →
  (prev + delta + n < 0)%Z →
  ∃ next,
    moveHighlight matchesLength (Integer delta) (Integer prev) = Integer next
    ∧ (- n < next ≤ 0)%Z
    ∧ (next = 0%Z ↔ (n | prev + delta)%Z).
Proof.
  intros Hne n _ _ Hsum Hall Hneg.
  exists (Z.rem (prev + delta + n) n).
  split; [by apply moveHighlight_safe|].
  assert (0 < n)%Z as Hn by lia.
  assert (prev + delta + n ≤ 0)%Z as Hle by lia.
  pose proof (Z.rem_bound_pos_neg (prev + delta + n) n Hn Hle) as Hbound.
  split; [exact Hbound|].
  split.
  - intros Hzero. apply Z.rem_divide in Hzero; [|lia].
    destruct Hzero as [k Hk]. exists (k - 1)%Z. lia.
  - intros [k Hk]. apply Z.rem_divide; [lia|]. exists (k + 1)%Z. lia.
Qed.

(** Three matches, index 0, four steps up: the index is -1. *)
Lemma moveHighlight_far_back_witness :
  moveHighlight 3 (Integer (-4)) (Integer 0) = Integer (-1).
Proof.
  destruct (moveHighlight_far_back 3 (-4) 0) as (next & Hmove & _ & _);
    [done|apply safeInteger_small; done..|done|].
  assert (Integer next = Integer (-1)) as [= ->] by (by rewrite <- Hmove).
  exact Hmove.
Defined.

(** Beyond the safe range the sums are rounded before the remainder is
    taken, and a sum that overflows leaves no index at all. *)
Lemma moveHighlight_rounds :
  moveHighlight 3 (Integer (2 ^ 53)) (Integer 0) = Integer 0
  ∧ Z.rem (2 ^ 53 + 3) 3 = 2%Z
  ∧ moveHighlight 3 (Integer (- 2 ^ 54)) (Integer 0) = Integer 0
  ∧ Z.rem (- 2 ^ 54 + 3) 3 = (-1)%Z
  ∧ moveHighlight 3 (Integer MAX_VALUE) (Integer MAX_VALUE) = NotANumber.
Proof. split_and!; by vm_compute. Qed.

End AutocompleteFacts.

(** * Workspace overrides *)

Module OverridesFacts.
Import Overrides.

Lemma trimStart_nil (s : Js.str) :
  Js.trimStart s = [] ↔ Forall (λ c, Js.isWhiteSpace c = true) s.
Proof.
  induction s as [|c s IH]; simpl; [done|].
  destruct (Js.isWhiteSpace c) eqn:Hc.
  - rewrite IH. split; [by constructor|by inversion 1].
  - split; [done|]. inversion 1; congruence.
Qed.

Lemma trim_nil (s : Js.str) :
  Js.trim s = [] ↔ Forall (λ c, Js.isWhiteSpace c = true) s.
Proof.
  split.
  - unfold Js.trim, Js.trimEnd. intros Hnil.
    apply (f_equal reverse) in Hnil.
    rewrite reverse_involutive, reverse_nil in Hnil.
    apply trimStart_nil in Hnil. rewrite Forall_reverse in Hnil.
    apply trimStart_nil.
    destruct (Js.trimStart s) as [|c rest] eqn:Hstart; [done|].
    pose proof (trimStart_head s c) as Hhead. rewrite Hstart in Hhead.
    apply Forall_cons in Hnil as [Hc _].
    rewrite Hhead in Hc; done.
  - intros Hall. apply trimStart_nil in Hall.
    unfold Js.trim, Js.trimEnd. by rewrite Hall.
Qed.

(** [normalizeOverrideValue] answers [null] exactly for a value made of
    white space only (the empty one included); any other value gives its
    trimmed form, which is not empty, has no white space at either end, and
    is left as it is when normalised again. *)
Theorem normalizeOverrideValue_spec (value : Js.str) :
  (normalizeOverrideValue value = None
   ↔ Forall (λ c, Js.isWhiteSpace c = true) value)
  ∧ (∀ t, normalizeOverrideValue value = Some t →
       t = Js.trim value
       ∧ t ≠ []
       ∧ Js.trimmed t
       ∧ normalizeOverrideValue t = Some t).
Proof.
  unfold normalizeOverrideValue, Js.truthy. split.
  - rewrite <- trim_nil. destruct (Js.trim value); split; done.
  - intros t Ht. destruct (Js.trim value) as [|c rest] eqn:Htrim; [done|].
    injection Ht as <-. rewrite <- Htrim.
    split_and!; [done|by rewrite Htrim|apply trim_trimmed|].
    rewrite (trim_id (Js.trim value)) by apply trim_trimmed.
    by rewrite Htrim.
Qed.

(** Tabs and spaces only give [null]; a padded path gives the path. *)
Lemma normalizeOverrideValue_spec_witness :
  normalizeOverrideValue (9%N :: js:"  ") = None
  ∧ normalizeOverrideValue js:"  /opt/codex " = Some js:"/opt/codex"
  ∧ normalizeOverrideValue js:"/opt/codex" = Some js:"/opt/codex".
Proof.
  destruct (normalizeOverrideValue_spec (9%N :: js:"  ")) as [Hblank _].
  destruct (normalizeOverrideValue_spec js:"  /opt/codex ") as [_ Hpath].
  split_and!.
  - apply Hblank. compute_done.
  - compute_done.
  - destruct (Hpath js:"/opt/codex") as (_ & _ & _ & Hagain); [compute_done|].
    exact Hagain.
Defined.



End OverridesFacts.

(** * The global config.toml hook *)

Module ConfigTomlFacts.
Import ConfigToml.

Lemma render_hook w :
  hook (render w) = hook w ∧ reads (render w) = reads w ∧ writes (render w) = writes w.
Proof. unfold render. by case_bool_decide. Qed.

Lemma render_deps w : dirtyDeps (render w) = content (state (hook (render w))).
Proof. unfold render. by case_bool_decide. Qed.

Lemma render_same w :
  dirtyDeps w = content (state (hook w)) → render w = w.
Proof. intros H. unfold render. by rewrite bool_decide_eq_true_2. Qed.

Lemma step_deps e w : dirtyDeps (step e w) = content (state (hook (step e w))).
Proof. apply render_deps. Qed.

Lemma reachable_deps w : reachable w → dirtyDeps w = content (state (hook w)).
Proof. destruct 1; apply step_deps. Qed.

Lemma config_reachable_run events w : reachable w → reachable (run events w).
Proof.
  revert w. induction events as [|e events IH]; intros w Hw; simpl; [done|].
  apply IH. by constructor.
Qed.

Lemma saveSettle_inFlight requestId saved outcome h :
  inFlightRef (saveSettle requestId saved outcome h).1 = inFlightRef h.
Proof.
  unfold saveSettle. destruct outcome; by case_bool_decide.
Qed.

Lemma step_hook e w :
  hook (step e w) = hook (handle e w)
  ∧ reads (step e w) = reads (handle e w)
  ∧ writes (step e w) = writes (handle e w).
Proof. apply render_hook. Qed.

Lemma readsTracked_step e w : readsTracked w → readsTracked (step e w).
Proof.
  intros Htracked. unfold readsTracked.
  destruct (step_hook e w) as (-> & -> & _).
  destruct e as [|requestId outcome|saved|requestId saved outcome|value]; simpl.
  - unfold refreshStart.
    destruct Htracked as [[Hreads Hflight]|(requestId & Hreads & Hflight)];
      rewrite Hflight; simpl.
    + right. exists (requestIdRef (hook w) + 1)%N. by rewrite Hreads.
    + right. exists requestId. by rewrite Hreads, Hflight.
  - case_bool_decide as Hin; [|done]. simpl. left.
    split; [|by destruct outcome].
    destruct Htracked as [[Hreads _]|(n & Hreads & _)]; rewrite Hreads in *.
    + done.
    + apply list_elem_of_singleton in Hin as ->.
      rewrite filter_cons_False by (intros H; by apply H). done.
  - done.
  - case_bool_decide; [|done]. simpl. by rewrite saveSettle_inFlight.
  - done.
Qed.

Lemma readsTracked_reachable w : reachable w → readsTracked w.
Proof.
  induction 1 as [|e w _ IH]; [|by apply readsTracked_step].
  right. by exists 1%N.
Qed.

Lemma reachable_not_reading w :
  reachable w → reads w = [] → inFlightRef (hook w) = false.
Proof.
  intros Hreach Hreads.
  destruct (readsTracked_reachable _ Hreach) as [[_ ?]|(n & Hn & _)]; [done|].
  by rewrite Hn in Hreads.
Qed.

(** The steps of a read and of a save, one by one. *)
Lemma step_refresh w :
  inFlightRef (hook w) = false →
  hook (step CallRefresh w)
  = setState (withLoading true None)
      (setRequestId (requestIdRef (hook w) + 1) (setInFlight true (hook w)))
  ∧ reads (step CallRefresh w) = reads w ++ [(requestIdRef (hook w) + 1)%N]
  ∧ writes (step CallRefresh w) = writes w.
Proof.
  intros Hflight. destruct (step_hook CallRefresh w) as (-> & -> & ->).
  simpl. unfold refreshStart. by rewrite Hflight.
Qed.

Lemma step_save saved w :
  hook (step (CallSave saved) w)
  = setState (withSaving true None) (setRequestId (requestIdRef (hook w) + 1) (hook w))
  ∧ reads (step (CallSave saved) w) = reads w
  ∧ writes (step (CallSave saved) w)
    = writes w ++ [((requestIdRef (hook w) + 1)%N, saved)].
Proof. by destruct (step_hook (CallSave saved) w) as (-> & -> & ->). Qed.

Lemma step_read requestId outcome w :
  requestId ∈ reads w →
  hook (step (ReadSettles requestId outcome) w)
  = refreshSettle requestId outcome (hook w)
  ∧ writes (step (ReadSettles requestId outcome) w) = writes w.
Proof.
  intros Hin. destruct (step_hook (ReadSettles requestId outcome) w) as (-> & _ & ->).
  simpl. by rewrite bool_decide_eq_true_2.
Qed.

Lemma step_write requestId saved outcome w :
  (requestId, saved) ∈ writes w →
  hook (step (WriteSettles requestId saved outcome) w)
  = (saveSettle requestId saved outcome (hook w)).1
  ∧ reads (step (WriteSettles requestId saved outcome) w) = reads w.
Proof.
  intros Hin.
  destruct (step_hook (WriteSettles requestId saved outcome) w) as (-> & -> & _).
  simpl. by rewrite bool_decide_eq_true_2.
Qed.

Lemma refreshSettle_stale requestId outcome h :
  requestId ≠ requestIdRef h → refreshSettle requestId outcome h = setInFlight false h.
Proof.
  intros Hstale. unfold refreshSettle.
  destruct outcome; by rewrite bool_decide_eq_false_2.
Qed.

Lemma saveSettle_stale requestId saved outcome h :
  requestId ≠ requestIdRef h → saveSettle requestId saved outcome h = (h, false).
Proof.
  intros Hstale. unfold saveSettle.
  destruct outcome; by rewrite bool_decide_eq_false_2.
Qed.

(** Reads never overlap: at most one read of the file is in flight,
    [inFlightRef] is set exactly while one is, and a call of [refresh]
    during that time does nothing at all (no request, no change of
    state). *)
Theorem config_one_read_at_a_time (w : World) :
  reachable w →
  length (reads w) ≤ 1
  ∧ (inFlightRef (hook w) = true ↔ reads w ≠ [])
  ∧ (reads w ≠ [] → step CallRefresh w = w).
Proof.
  intros Hreach.
  pose proof (reachable_deps _ Hreach) as Hdeps.
  destruct (readsTracked_reachable _ Hreach)
    as [[Hreads Hflight]|(requestId & Hreads & Hflight)]; rewrite Hreads, Hflight.
  - split_and!; [simpl; lia|done|done].
  - split_and!; [simpl; lia|done|]. intros _.
    unfold step, handle, refreshStart. rewrite Hflight.
    rewrite app_nil_r.
    rewrite render_same by done. by destruct w.
Qed.

(** The read of the mount is in flight: a second [refresh] is ignored. *)
Lemma config_one_read_at_a_time_witness :
  reads mount = [1%N] ∧ step CallRefresh mount = mount.
Proof.
  split; [compute_done|].
  apply (config_one_read_at_a_time mount); [apply reachable_mount|compute_done].
Defined.

(** A save started while a read is in flight supersedes the read: when
    the read settles, whatever it answers is dropped, and the loading flag
    [refresh] had set stays set; it is still set when the save has settled,
    whether the write succeeded or not. *)
Theorem config_save_during_refresh (w : World) (saved : Js.str)
    (readOutcome : Settles Response) (writeOutcome : Settles unit) :
  reachable w →
  reads w = [] →
  let requestId := (requestIdRef (hook w) + 1)%N in
  let reading := step CallRefresh w in
  let saving := step (CallSave saved) reading in
  let readDone := step (ReadSettles requestId readOutcome) saving in
  let saveDone := step (WriteSettles (requestId + 1) saved writeOutcome) readDone in
  reads saving = [requestId]
  ∧ isLoading (state (hook saving)) = true
  ∧ state (hook readDone) = state (hook saving)
  ∧ lastLoadedContentRef (hook readDone) = lastLoadedContentRef (hook w)
  ∧ toasts (hook readDone) = toasts (hook w)
  ∧ inFlightRef (hook readDone) = false
  ∧ isLoading (state (hook saveDone)) = true.
Proof.
  intros Hreach Hreads requestId reading saving readDone saveDone.
  pose proof (reachable_not_reading _ Hreach Hreads) as Hflight.
  destruct (step_refresh w Hflight) as (Hreading & Hreads1 & Hwrites1).
  fold reading in Hreading, Hreads1, Hwrites1. fold requestId in Hreading, Hreads1.
  rewrite Hreads in Hreads1. simpl in Hreads1.
  destruct (step_save saved reading) as (Hsaving & Hreads2 & Hwrites2).
  fold saving in Hsaving, Hreads2, Hwrites2.
  assert (requestIdRef (hook reading) = requestId) as Hid1 by by rewrite Hreading.
  rewrite Hid1 in Hsaving, Hwrites2. rewrite Hreads1 in Hreads2.
  destruct (step_read requestId readOutcome saving) as [HreadDone Hwrites3].
  { rewrite Hreads2. by apply list_elem_of_singleton. }
  fold readDone in HreadDone, Hwrites3.
  rewrite refreshSettle_stale in HreadDone by (rewrite Hsaving; simpl; lia).
  destruct (step_write (requestId + 1) saved writeOutcome readDone) as [HsaveDone _].
  { rewrite Hwrites3, Hwrites2. apply elem_of_app. right.
    by apply list_elem_of_singleton. }
  fold saveDone in HsaveDone.
  clearbody saveDone readDone saving reading.
  split_and!.
  - done.
  - by rewrite Hsaving, Hreading.
  - by rewrite HreadDone.
  - by rewrite HreadDone, Hsaving, Hreading.
  - by rewrite HreadDone, Hsaving, Hreading.
  - by rewrite HreadDone.
  - rewrite HsaveDone. unfold saveSettle.
    assert ((requestId + 1)%N = requestIdRef (hook readDone)) as Hfresh
      by by rewrite HreadDone, Hsaving.
    destruct writeOutcome; rewrite bool_decide_eq_true_2 by done; simpl;
      by rewrite HreadDone, Hsaving, Hreading.
Qed.

(** The first read has loaded the file. A refresh starts, the user saves
    before it answers, the refresh answers, the write succeeds: the hook
    still reports that it is loading. *)
Lemma config_save_during_refresh_witness :
  let idle := run [ReadSettles 1 (Resolved loaded)] mount in
  let after :=
    run [CallRefresh; CallSave js:"model = 2";
         ReadSettles 2 (Resolved loaded);
         WriteSettles 3 js:"model = 2" (Resolved ())] idle in
  isLoading (state (hook idle)) = false
  ∧ reads after = []
  ∧ writes after = []
  ∧ isLoading (state (hook after)) = true.
Proof.
  split; [compute_done|]. split; [compute_done|]. split; [compute_done|].
  destruct (config_save_during_refresh (run [ReadSettles 1 (Resolved loaded)] mount)
              js:"model = 2" (Resolved loaded) (Resolved ()))
    as (_ & _ & _ & _ & _ & _ & Hloading).
  - apply config_reachable_run, reachable_mount.
  - compute_done.
  - etrans; [|exact Hloading]. compute_done.
Defined.

(** A refresh started while a save is in flight supersedes the save: the
    promise of [save] resolves with [false] even when the write succeeded,
    and nothing of its outcome is recorded (no state, no last loaded
    content, no toast), so the saving flag stays set. The refresh clears
    it when it succeeds, loading the content it read, and leaves it set
    when it fails. *)
Theorem config_refresh_during_save (w : World) (saved : Js.str)
    (writeOutcome : Settles unit) (readOutcome : Settles Response) :
  reachable w →
  reads w = [] →
  let requestId := (requestIdRef (hook w) + 1)%N in
  let saving := step (CallSave saved) w in
  let reading := step CallRefresh saving in
  let saveDone := step (WriteSettles requestId saved writeOutcome) reading in
  let readDone := step (ReadSettles (requestId + 1) readOutcome) saveDone in
  (saveSettle requestId saved writeOutcome (hook reading)).2 = false
  ∧ state (hook saveDone) = state (hook reading)
  ∧ lastLoadedContentRef (hook saveDone) = lastLoadedContentRef (hook w)
  ∧ toasts (hook saveDone) = toasts (hook w)
  ∧ isSaving (state (hook saveDone)) = true
  ∧ match readOutcome with
    | Resolved response =>
        isSaving (state (hook readDone)) = false
        ∧ content (state (hook readDone)) = response_content response
        ∧ lastLoadedContentRef (hook readDone) = response_content response
    | Rejected err =>
        isSaving (state (hook readDone)) = true
        ∧ error (state (hook readDone)) = Some (messageOf err)
    end.
Proof.
  intros Hreach Hreads requestId saving reading saveDone readDone.
  pose proof (reachable_not_reading _ Hreach Hreads) as Hflight.
  destruct (step_save saved w) as (Hsaving & Hreads1 & Hwrites1).
  fold saving in Hsaving, Hreads1, Hwrites1. fold requestId in Hsaving, Hwrites1.
  destruct (step_refresh saving) as (Hreading & Hreads2 & Hwrites2).
  { by rewrite Hsaving. }
  fold reading in Hreading, Hreads2, Hwrites2.
  assert (requestIdRef (hook saving) = requestId) as Hid1 by by rewrite Hsaving.
  rewrite Hid1 in Hreading, Hreads2. rewrite Hreads1, Hreads in Hreads2.
  simpl in Hreads2.
  assert (requestId ≠ requestIdRef (hook reading)) as Hstale.
  { rewrite Hreading. simpl. lia. }
  destruct (step_write requestId saved writeOutcome reading) as [HsaveDone Hreads3].
  { rewrite Hwrites2, Hwrites1. apply elem_of_app. right.
    by apply list_elem_of_singleton. }
  fold saveDone in HsaveDone, Hreads3.
  rewrite saveSettle_stale in HsaveDone by done. cbn [fst] in HsaveDone.
  destruct (step_read (requestId + 1) readOutcome saveDone) as [HreadDone _].
  { rewrite Hreads3, Hreads2. by apply list_elem_of_singleton. }
  fold readDone in HreadDone.
  clearbody readDone saveDone reading saving.
  split_and!.
  - by rewrite saveSettle_stale.
  - by rewrite HsaveDone.
  - by rewrite HsaveDone, Hreading, Hsaving.
  - by rewrite HsaveDone, Hreading, Hsaving.
  - by rewrite HsaveDone, Hreading, Hsaving.
  - rewrite HreadDone, HsaveDone. unfold refreshSettle.
    assert ((requestId + 1)%N = requestIdRef (hook reading)) as Hfresh
      by by rewrite Hreading.
    destruct readOutcome; rewrite bool_decide_eq_true_2 by done; simpl; [done|].
    by rewrite Hreading, Hsaving.
Qed.

(** The file is loaded. The user saves, a refresh starts before the write
    answers, the write succeeds, the read fails: the hook still reports
    that it is saving. *)
Lemma config_refresh_during_save_witness :
  let idle := run [ReadSettles 1 (Resolved loaded)] mount in
  let after :=
    run [CallSave js:"model = 2"; CallRefresh;
         WriteSettles 2 js:"model = 2" (Resolved ());
         ReadSettles 3 (Rejected (ErrorObject js:"denied"))] idle in
  isSaving (state (hook idle)) = false
  ∧ writes after = []
  ∧ isSaving (state (hook after)) = true.
Proof.
  split; [compute_done|]. split; [compute_done|].
  destruct (config_refresh_during_save (run [ReadSettles 1 (Resolved loaded)] mount)
              js:"model = 2" (Resolved ()) (Rejected (ErrorObject js:"denied")))
    as (_ & _ & _ & _ & _ & Hsaving & _).
  - apply config_reachable_run, reachable_mount.
  - compute_done.
  - exact Hsaving.
Defined.

Lemma handle_memo e w :
  dirtyDeps (handle e w) = dirtyDeps w ∧ isDirty (handle e w) = isDirty w.
Proof.
  destruct e; simpl; try done.
  - by destruct (refreshStart (hook w)).
  - by case_bool_decide.
  - by case_bool_decide.
Qed.

(** [isDirty] is a memo on [state.content]: an event that changes the
    content leaves [isDirty] saying whether the new content differs from
    the last loaded one; an event that leaves the content as it was
    leaves [isDirty] as it was, whatever it did to the last loaded
    content. *)
Theorem config_isDirty_follows_content (w : World) (e : Event) :
  reachable w →
  let w' := step e w in
  (content (state (hook w')) ≠ content (state (hook w)) →
   isDirty w'
   = negb (bool_decide (content (state (hook w')) = lastLoadedContentRef (hook w'))))
  ∧ (content (state (hook w')) = content (state (hook w)) → isDirty w' = isDirty w).
Proof.
  intros Hreach w'. subst w'.
  pose proof (reachable_deps _ Hreach) as Hdeps.
  destruct (handle_memo e w) as [Hdeps' Hdirty'].
  destruct (step_hook e w) as (Hhook & _ & _).
  rewrite Hhook. unfold step, render. rewrite Hdeps', Hdeps.
  case_bool_decide as Hsame; simpl; split; intros; congruence.
Qed.

(** The file is loaded as "model = 1": typing "model = 2" sets
    [isDirty], typing "model = 1" again clears it. *)
Lemma config_isDirty_follows_content_witness :
  let idle := run [ReadSettles 1 (Resolved loaded)] mount in
  isDirty idle = false
  ∧ isDirty (step (SetContent js:"model = 2") idle) = true
  ∧ isDirty (run [SetContent js:"model = 2"; SetContent js:"model = 1"] idle) = false.
Proof.
  split; [compute_done|]. split.
  - destruct (config_isDirty_follows_content
                (run [ReadSettles 1 (Resolved loaded)] mount)
                (SetContent js:"model = 2")) as [Hchanged _].
    + apply config_reachable_run, reachable_mount.
    + etrans; [apply Hchanged; compute_done|]. compute_done.
  - compute_done.
Defined.

(** A save that succeeds and is not superseded resolves with [true] and
    records what it wrote as the last loaded content, but it leaves the
    content alone, so [isDirty] keeps the value it had: after saving an
    edited content, the content is the last loaded one and [isDirty] still
    says [true], until the content changes again. *)
Theorem config_save_keeps_dirty_flag (w : World) (saved : Js.str) :
  reachable w →
  (requestIdRef (hook w), saved) ∈ writes w →
  let w' := step (WriteSettles (requestIdRef (hook w)) saved (Resolved ())) w in
  (saveSettle (requestIdRef (hook w)) saved (Resolved ()) (hook w)).2 = true
  ∧ lastLoadedContentRef (hook w') = saved
  ∧ content (state (hook w')) = content (state (hook w))
  ∧ exists_ (state (hook w')) = true
  ∧ isSaving (state (hook w')) = false
  ∧ isDirty w' = isDirty w.
Proof.
  intros Hreach Hin w'.
  destruct (step_write (requestIdRef (hook w)) saved (Resolved ()) w Hin)
    as [Hhook _].
  fold w' in Hhook.
  assert (saveSettle (requestIdRef (hook w)) saved (Resolved ()) (hook w)
          = (setState withSaved (setLastLoaded saved (hook w)), true)) as Hsettle.
  { unfold saveSettle. by rewrite bool_decide_eq_true_2. }
  rewrite Hsettle in Hhook. simpl in Hhook.
  assert (content (state (hook w')) = content (state (hook w))) as Hcontent
    by by rewrite Hhook.
  split_and!; try by rewrite ?Hsettle, ?Hhook.
  by apply (config_isDirty_follows_content w _ Hreach).
Qed.

(** The file is loaded as "model = 1"; the user types "model = 2" and
    saves, the write succeeds: the content is the last loaded content, and
    [isDirty] is [true]. *)
Lemma config_save_keeps_dirty_flag_witness :
  let saved :=
    run [ReadSettles 1 (Resolved loaded); SetContent js:"model = 2";
         CallSave js:"model = 2"; WriteSettles 2 js:"model = 2" (Resolved ())]
      mount in
  content (state (hook saved)) = lastLoadedContentRef (hook saved)
  ∧ isDirty saved = true.
Proof.
  split; [compute_done|].
  destruct (config_save_keeps_dirty_flag
              (run [ReadSettles 1 (Resolved loaded); SetContent js:"model = 2";
                    CallSave js:"model = 2"] mount) js:"model = 2")
    as (_ & _ & _ & _ & _ & Hdirty).
  - apply config_reachable_run, reachable_mount.
  - compute_done.
  - etrans; [exact Hdirty|]. compute_done.
Defined.

End ConfigTomlFacts.
